(** * Consensus voting of the eligibility-trait classification pipeline

    A shallow embedding of [scripts/consensus.py]: majority vote with
    agreement ratio and confidence flag ([calculate_consensus]), the two
    phase aggregators, the proposal merger and the summary reporter,
    followed by the properties of these functions.

    Conventions of the embedding.
    - A Python [str] is a [string] of code points U+0000..U+00FF, a range
      closed under [str.lower] and [str.strip]; the three glyphs lie
      outside it and are written as their UTF-8 bytes, which is harmless
      since labels, item keys and glyphs are only compared and sorted, and
      the byte order of UTF-8 is the order of the code points.
    - A Python [dict] (and a [Counter]) is an association list in
      insertion order; [set()] is a [gset].
    - A raised exception is the [Raise] branch of [result].
    - A Python [float] is the rational number that the double denotes;
      an operation returns the double nearest to the exact result, ties
      going to the even significand, as IEEE 754 has it. *)

From stdpp Require Import base decidable option list strings pretty sorting gmap.
From Stdlib Require Import Ascii QArith Qpower Qround Qabs Lqa Floats.
Close Scope Q_scope.

(** ** Exceptions and results *)

Inductive exn : Type :=
| IndexError (msg : string)
| KeyError (key : string)
| ZeroDivisionError (msg : string).

Inductive result (A : Type) : Type :=
| Ok (a : A)
| Raise (e : exn).
Arguments Ok {A} a.
Arguments Raise {A} e.

Definition rbind {A B} (m : result A) (k : A → result B) : result B :=
  match m with
  | Ok a => k a
  | Raise e => Raise e
  end.

Notation "x <-- m ;; k" := (rbind m (λ x, k))
  (at level 100, m at next level, right associativity, only parsing).

(** ** Python dictionaries, in insertion order *)

Module Dict.
Section dict.
Context {K V : Type} `{EqDecision K}.

(** [d.get(k)]: [Some] of the value for a key that is [in d], [None]
    otherwise. *)
Fixpoint get (d : list (K * V)) (k : K) : option V :=
  match d with
  | [] => None
  | (k', v) :: d' => if decide (k' = k) then Some v else get d' k
  end.

(** [d.keys()] *)
Definition keys (d : list (K * V)) : list K := d.*1.

(** [d[k] = v]: an existing key keeps its position, a new key is
    appended. *)
Fixpoint set (d : list (K * V)) (k : K) (v : V) : list (K * V) :=
  match d with
  | [] => [(k, v)]
  | (k', v') :: d' =>
      if decide (k' = k) then (k', v) :: d' else (k', v') :: set d' k v
  end.

(** [{**d, **e}] *)
Definition update (d e : list (K * V)) : list (K * V) :=
  foldl (λ acc kv, set acc kv.1 kv.2) d e.
End dict.
End Dict.

(** ** [collections.Counter] *)

(** [c[k] += 1]: an existing key keeps its position, a new key is
    appended. *)
Fixpoint counter_incr (c : list (string * nat)) (k : string)
  : list (string * nat) :=
  match c with
  | [] => [(k, 1)]
  | (k', n) :: c' =>
      if decide (k' = k) then (k', S n) :: c' else (k', n) :: counter_incr c' k
  end.

(** [Counter(iterable)] *)
Definition Counter (elems : list string) : list (string * nat) :=
  foldl counter_incr [] elems.

(** [max(it, key=itemgetter(1))] once the first item is taken: a later
    item replaces the running maximum only when its count is strictly
    larger. *)
Fixpoint max_by_count (best : string * nat) (rest : list (string * nat))
  : string * nat :=
  match rest with
  | [] => best
  | item :: rest' =>
      max_by_count (if decide (best.2 < item.2) then item else best) rest'
  end.

(** [c.most_common(1)], which is [heapq.nlargest(1, c.items(), key=count)]:
    the empty list for an empty counter, else the one-element list of the
    first item of maximal count. *)
Definition most_common_1 (c : list (string * nat)) : list (string * nat) :=
  match c with
  | [] => []
  | item :: rest => [max_by_count item rest]
  end.

(** [l[i]] *)
Definition getitem {A} (l : list A) (i : nat) : result A :=
  match l !! i with
  | Some x => Ok x
  | None => Raise (IndexError "list index out of range")
  end.

(** ** Consensus resolver *)

Definition GREEN : string := "🟢".
Definition YELLOW : string := "🟡".
Definition RED : string := "🔴".

Definition calculate_consensus (votes : list string)
  : result (string * string * string) :=
  let vote_counts := Counter votes in
  most_common <-- getitem (most_common_1 vote_counts) 0 ;;
  let consensus_value := most_common.1 in
  let agreement_count := most_common.2 in
  let agreement_ratio :=
    pretty agreement_count +:+ "/" +:+ pretty (length votes) in
  let flag :=
    if decide (4 ≤ agreement_count)%nat then GREEN
    else if decide (agreement_count = 3) then YELLOW
    else RED in
  Ok (consensus_value, agreement_ratio, flag).

(** ** Phase aggregator *)

Definition MODELS : list string :=
  ["claude"; "gpt5"; "gemini"; "deepseek"; "grok"].

(** [sorted(xs)] on strings: ascending in code-point order. *)
Definition sorted (xs : list string) : list string := merge_sort String.le xs.

(** Elements of a list in the order of their first occurrence. *)
Fixpoint first_seen (l : list string) : list string :=
  match l with
  | [] => []
  | x :: l' => x :: filter (λ y, y ≠ x) (first_seen l')
  end.

(** A row is a dict from column name to a cell, a cell being a [str] or
    [None]; a frame keeps its column index besides its rows, as
    [pandas.DataFrame] does. *)
Record DataFrame : Type := {
  columns : list string;
  records : list (list (string * option string))
}.

(** [pd.DataFrame(rows)] for a list of dicts: the columns are the keys of
    the rows in order of first appearance, none for an empty list. *)
Definition pd_DataFrame (rows : list (list (string * option string)))
  : DataFrame :=
  {| columns := first_seen (concat (Dict.keys <$> rows)); records := rows |}.

(** [len(df)] *)
Definition len (df : DataFrame) : nat := length (records df).

(** The union of the item keys of every entry of the input mapping. *)
Definition all_items (model_results : list (string * list (string * string)))
  : gset string :=
  foldl (λ acc results, acc ∪ list_to_set (Dict.keys results.2))
        ∅ model_results.

(** The loop over [MODELS] for one item: the votes present, in panel
    order, and the per-model record with [None] for a missing vote. The
    test [model in model_results and item in model_results[model]]
    succeeds when both lookups do. *)
Definition panel_votes (model_results : list (string * list (string * string)))
    (item : string) : list string * list (string * option string) :=
  foldl (λ acc model,
           let '(votes, model_votes) := acc in
           match Dict.get model_results model with
           | Some results =>
               match Dict.get results item with
               | Some vote =>
                   (votes ++ [vote], Dict.set model_votes model (Some vote))
               | None => (votes, Dict.set model_votes model None)
               end
           | None => (votes, Dict.set model_votes model None)
           end)
        ([], []) MODELS.

(** The loop over the sorted items, appending one row for every item
    whose vote list is not empty. *)
Fixpoint aggregate_rows (item_col label_col : string)
    (model_results : list (string * list (string * string)))
    (items : list string) (rows : list (list (string * option string)))
  : result (list (list (string * option string))) :=
  match items with
  | [] => Ok rows
  | item :: items' =>
      let '(votes, model_votes) := panel_votes model_results item in
      match votes with
      | [] => aggregate_rows item_col label_col model_results items' rows
      | _ :: _ =>
          cons_agr_flag <-- calculate_consensus votes ;;
          let '(consensus, agreement, flag) := cons_agr_flag in
          let row :=
            Dict.update [(item_col, Some item); (label_col, Some consensus);
                         ("agreement", Some agreement); ("flag", Some flag)]
                        model_votes in
          aggregate_rows item_col label_col model_results items' (rows ++ [row])
      end
  end.

(** The body shared by the two aggregators, which differ in the names of
    their first two columns only. *)
Definition aggregate_results (item_col label_col : string)
    (model_results : list (string * list (string * string)))
  : result DataFrame :=
  rows <-- aggregate_rows item_col label_col model_results
             (sorted (elements (all_items model_results))) [] ;;
  Ok (pd_DataFrame rows).

Definition aggregate_phase2_results := aggregate_results "trait" "umbrella".
Definition aggregate_phase3_results :=
  aggregate_results "umbrella" "final_category".

(** ** Proposal merger *)

(** [str.lower] on one character of U+0000..U+00FF: the capitals A..Z,
    U+00C0..U+00D6 and U+00D8..U+00DE move up by 32. *)
Definition lower_char (c : ascii) : ascii :=
  let n := nat_of_ascii c in
  if bool_decide (65 ≤ n ≤ 90 ∨ 192 ≤ n ≤ 214 ∨ 216 ≤ n ≤ 222)
  then ascii_of_nat (n + 32) else c.

Fixpoint lower (s : string) : string :=
  match s with
  | EmptyString => EmptyString
  | String c s' => String (lower_char c) (lower s')
  end.

(** [str.isspace] on one character of U+0000..U+00FF. *)
Definition is_space (c : ascii) : bool :=
  let n := nat_of_ascii c in
  bool_decide (9 ≤ n ≤ 13 ∨ 28 ≤ n ≤ 32 ∨ n = 133 ∨ n = 160).

Fixpoint lstrip (s : string) : string :=
  match s with
  | EmptyString => EmptyString
  | String c s' => if is_space c then lstrip s' else s
  end.

Definition rstrip (s : string) : string := String.rev (lstrip (String.rev s)).

(** [s.strip()] *)
Definition strip (s : string) : string := rstrip (lstrip s).

(** The two nested loops filling [category_counts]. *)
Definition count_proposals (model_proposals : list (string * list string))
  : list (string * nat) :=
  foldl (λ category_counts mc,
           foldl (λ category_counts cat,
                    let normalized := strip (lower cat) in
                    counter_incr category_counts normalized)
                 category_counts mc.2)
        [] model_proposals.

Definition merge_umbrella_proposals
    (model_proposals : list (string * list string)) (threshold : Z)
  : list string :=
  let category_counts := count_proposals model_proposals in
  let unified :=
    (filter (λ cc, (threshold ≤ Z.of_nat cc.2)%Z) category_counts).*1 in
  sorted unified.

(** The default value of [threshold]. *)
Definition default_threshold : Z := 3.

(** ** Summary reporter *)

(** *** Floats

    The value of a finite double is kept as a rational. The doubles of
    the normal range are the numbers [m * 2 ^ (e - 52)] with
    [2 ^ 52 <= m < 2 ^ 53]; no value computed here leaves that range for a
    total below [2 ^ 1000]. *)

(** The integer nearest to [q], the even one of two that are equally
    near. *)
Definition round_half_even (q : Q) : Z :=
  let f := Qfloor q in
  match (q - inject_Z f ?= 1 # 2)%Q with
  | Lt => f
  | Gt => (f + 1)%Z
  | Eq => if Z.even f then f else (f + 1)%Z
  end.

(** The exponent [e] with [2 ^ e <= q < 2 ^ (e + 1)], for [0 < q]. *)
Definition binade (q : Q) : Z :=
  let e0 := (Z.log2 (Qnum q) - Z.log2 (Zpos (Qden q)))%Z in
  if Qle_bool (2 ^ e0) q then e0 else (e0 - 1)%Z.

(** The double nearest to [q], for [0 < q]: a significand of 53 bits. *)
Definition nearest_double (q : Q) : Q :=
  let e := binade q in
  Qred (inject_Z (round_half_even (q * 2 ^ (52 - e))) * 2 ^ (e - 52)).

(** Rounding to nearest, ties to even. *)
Definition round_nearest (q : Q) : Q :=
  match (q ?= 0)%Q with
  | Eq => 0%Q
  | Gt => nearest_double q
  | Lt => (- nearest_double (- q))%Q
  end.

(** [x * y] on floats. *)
Definition float_mul (x y : Q) : Q := round_nearest (x * y).

(** [round(x, ndigits)]: the decimal with [ndigits] digits after the
    point nearest to [x], ties to even, then the double nearest to that
    decimal. *)
Definition float_round (x : Q) (ndigits : nat) : Q :=
  round_nearest
    (inject_Z (round_half_even (x * inject_Z (10 ^ Z.of_nat ndigits)))
     / inject_Z (10 ^ Z.of_nat ndigits)).

(** [a / b] on integers: the double nearest to the quotient, an error for
    a zero divisor. *)
Definition truediv (a b : nat) : result Q :=
  if decide (b = 0) then Raise (ZeroDivisionError "division by zero")
  else Ok (round_nearest (Z.of_nat a # Pos.of_nat b)).

(** [df[col]]: the cells of a column, [KeyError] for a name that is not a
    column. *)
Definition df_getitem (df : DataFrame) (col : string)
  : result (list (option string)) :=
  if decide (col ∈ columns df)
  then Ok ((λ r, default None (Dict.get r col)) <$> records df)
  else Raise (KeyError col).

(** [series == value] *)
Definition series_eq (series : list (option string)) (value : string)
  : list bool :=
  (λ c, bool_decide (c = Some value)) <$> series.

(** [df[mask]] *)
Definition df_mask (df : DataFrame) (mask : list bool) : DataFrame :=
  {| columns := columns df;
     records := (filter (λ rm, rm.2 = true) (zip (records df) mask)).*1 |}.

Record SummaryStats : Type := {
  total : nat;
  green : nat;
  green_pct : Q;
  yellow : nat;
  yellow_pct : Q;
  red : nat;
  red_pct : Q
}.

Definition generate_summary_stats (df : DataFrame) (flag_column : string)
  : result SummaryStats :=
  let total := len df in
  flags <-- df_getitem df flag_column ;;
  let green := len (df_mask df (series_eq flags GREEN)) in
  flags <-- df_getitem df flag_column ;;
  let yellow := len (df_mask df (series_eq flags YELLOW)) in
  flags <-- df_getitem df flag_column ;;
  let red := len (df_mask df (series_eq flags RED)) in
  green_ratio <-- truediv green total ;;
  let green_pct := float_round (float_mul green_ratio 100) 1 in
  yellow_ratio <-- truediv yellow total ;;
  let yellow_pct := float_round (float_mul yellow_ratio 100) 1 in
  red_ratio <-- truediv red total ;;
  let red_pct := float_round (float_mul red_ratio 100) 1 in
  Ok (Build_SummaryStats total green green_pct yellow yellow_pct red red_pct).

(** The default value of [flag_column]. *)
Definition default_flag_column : string := "flag".

(** ** Preprocessing of the traits ([scripts/preprocess.py]) *)

(** [re.sub(r'\s+', ' ', s)]: every maximal run of whitespace becomes one
    blank; [in_run] tells that the character before was whitespace. For a
    [str] pattern [\s] matches the characters of [str.isspace]. *)
Fixpoint sub_whitespace (in_run : bool) (s : string) : string :=
  match s with
  | EmptyString => EmptyString
  | String c s' =>
      if is_space c
      then if in_run then sub_whitespace true s'
           else String " " (sub_whitespace true s')
      else String c (sub_whitespace false s')
  end.

(** [s.lstrip(chars)] *)
Fixpoint lstrip_chars (chars : list ascii) (s : string) : string :=
  match s with
  | EmptyString => EmptyString
  | String c s' => if bool_decide (c ∈ chars) then lstrip_chars chars s' else s
  end.

(** [s.strip(chars)] *)
Definition strip_chars (chars : string) (s : string) : string :=
  let cs := String.list_ascii_of_string chars in
  String.rev (lstrip_chars cs (String.rev (lstrip_chars cs s))).

Definition normalize_trait (trait : string) : string :=
  let normalized := strip (lower trait) in
  let normalized := sub_whitespace false normalized in
  let normalized := strip_chars ".,;:" normalized in
  normalized.

(** The loop of [deduplicate_traits]: the set [seen] and the list
    [unique_traits]. *)
Definition deduplicate_loop (traits : list string) : gset string * list string :=
  foldl (λ acc trait,
           let '(seen, unique_traits) := acc in
           let normalized := normalize_trait trait in
           if bool_decide (normalized ≠ "") && bool_decide (normalized ∉ seen)
           then ({[normalized]} ∪ seen, unique_traits ++ [normalized])
           else (seen, unique_traits))
        (∅, []) traits.

Definition deduplicate_traits (traits : list string) : list string :=
  sorted (deduplicate_loop traits).2.



(** ** Notions used by the statements *)

(** Number of occurrences of a label in a vote list. *)
Definition occurrences (x : string) (l : list string) : nat :=
  length (filter (λ y, y = x) l).

(** Position of the first occurrence of a label, as [list.index] counts
    it; the length of the list for a label that does not occur. *)
Fixpoint index_of (x : string) (l : list string) : nat :=
  match l with
  | [] => 0
  | y :: l' => if decide (y = x) then 0 else S (index_of x l')
  end.

(** The plurality count: the largest number of occurrences of a label. *)
Definition plurality_count (votes : list string) : nat :=
  max_list ((λ l, occurrences l votes) <$> votes).

(** The confidence tier as a function of the agreement count alone. *)
Definition confidence_tier (count : nat) : string :=
  if decide (4 ≤ count) then GREEN
  else if decide (count = 3) then YELLOW
  else RED.

(** The message an exception carries. *)
Definition exn_message (e : exn) : string :=
  match e with
  | IndexError msg => msg
  | KeyError key => key
  | ZeroDivisionError msg => msg
  end.

(** An error that speaks of the empty vote list: its message contains the
    words no votes. *)
Definition no_votes_error (e : exn) : Prop :=
  is_Some (String.index 0 "no votes" (exn_message e)).

(** The normal form of a proposal. *)
Definition normalize (cat : string) : string := strip (lower cat).

(** The normalized proposals of all sources, in the order the two loops
    visit them. *)
Definition all_proposals (model_proposals : list (string * list string))
  : list string :=
  model_proposals ≫= λ mc, normalize <$> mc.2.

(** The vote of a panel source for an item: [None] when the source is
    missing from the input mapping or has no entry for the item. *)
Definition panel_vote (model_results : list (string * list (string * string)))
    (model item : string) : option string :=
  Dict.get model_results model ≫= λ results, Dict.get results item.

(** The votes present for an item, in panel order. *)
Definition present_votes (model_results : list (string * list (string * string)))
    (item : string) : list string :=
  omap (λ model, panel_vote model_results model item) MODELS.

(** An item key is observed when some entry of the input mapping, panel
    source or not, has it as a key. *)
Definition observed (model_results : list (string * list (string * string)))
    (item : string) : Prop :=
  ∃ source results, (source, results) ∈ model_results ∧ item ∈ Dict.keys results.

(** The cells of a column, row by row; [None] for a row without the
    column. *)
Definition column (col : string) (df : DataFrame)
  : list (option (option string)) :=
  (λ row, Dict.get row col) <$> records df.

(** The row of an item: its key, the verdict on its present votes, and the
    vote of every panel source. *)
Definition verdict_row (item_col label_col : string)
    (model_results : list (string * list (string * string)))
    (item : string) (row : list (string * option string)) : Prop :=
  ∃ consensus agreement flag,
    calculate_consensus (present_votes model_results item)
    = Ok (consensus, agreement, flag)
    ∧ row = [(item_col, Some item); (label_col, Some consensus);
             ("agreement", Some agreement); ("flag", Some flag)]
            ++ ((λ model, (model, panel_vote model_results model item))
                  <$> MODELS).

(** The contract of a phase aggregator on its rows, [item_col] being the
    column of the item keys: the item keys of the rows, in row order, are
    ascending and distinct; they are the observed keys with a present
    vote; their number is the number of observed keys less the number of
    those without a present vote; every row holds, for every panel source,
    the vote of that source for the item of the row, or [None]. *)
Definition one_row_per_voted_item (item_col : string)
    (model_results : list (string * list (string * string)))
    (df : DataFrame) : Prop :=
  ∃ items,
    column item_col df = (λ i, Some (Some i)) <$> items
    ∧ StronglySorted String.le items
    ∧ NoDup items
    ∧ (∀ i, i ∈ items
            ↔ observed model_results i ∧ present_votes model_results i ≠ [])
    ∧ length (records df)
      = size (all_items model_results)
        - size (filter (λ i, present_votes model_results i = [])
                       (all_items model_results))
    ∧ Forall2 (λ i row, ∀ m, m ∈ MODELS →
                 Dict.get row m = Some (panel_vote model_results m i))
              items (records df).

(** Only panel votes count: the verdict of every row is the consensus of
    the panel votes present for its item, and an item without any panel
    vote has no row. *)
Definition panel_votes_only (item_col label_col : string)
    (model_results : list (string * list (string * string)))
    (df : DataFrame) : Prop :=
  Forall (λ row, ∃ i consensus agreement flag,
            Dict.get row item_col = Some (Some i)
            ∧ calculate_consensus (present_votes model_results i)
              = Ok (consensus, agreement, flag)
            ∧ Dict.get row label_col = Some (Some consensus)
            ∧ Dict.get row "agreement" = Some (Some agreement)
            ∧ Dict.get row "flag" = Some (Some flag))
         (records df)
  ∧ (∀ i, (∀ m, m ∈ MODELS → panel_vote model_results m i = None) →
          Some (Some i) ∉ column item_col df).

(** The percentage that the reporter computes from a count and the
    total. *)
Definition percentage (count total : nat) : Q :=
  float_round
    (float_mul (round_nearest (Z.of_nat count # Pos.of_nat total)) 100) 1.

(** The number of rows whose flag is a given glyph. *)
Definition flag_count (df : DataFrame) (flag_column glyph : string) : nat :=
  length (filter (λ row, Dict.get row flag_column = Some (Some glyph))
                 (records df)).

(** The flag of a row is one of the three tier glyphs. *)
Definition tier_flag (flag_column : string) (row : list (string * option string))
  : Prop :=
  Dict.get row flag_column = Some (Some GREEN)
  ∨ Dict.get row flag_column = Some (Some YELLOW)
  ∨ Dict.get row flag_column = Some (Some RED).

(** The rational value of a finite binary64 float of the kernel, against
    which the float model is tested. *)
Definition double_value (x : float) : Q :=
  match Prim2SF x with
  | S754_finite s m e =>
      Qred ((if s then - (1) else 1) * inject_Z (Zpos m) * 2 ^ e)
  | _ => 0%Q
  end.

(** The characters of a string. *)
Definition chars (s : string) : list ascii := String.list_ascii_of_string s.

(** Dropping the longest prefix of characters that satisfy [p], and
    dropping it at both ends. *)
Fixpoint drop_while (p : ascii → bool) (l : list ascii) : list ascii :=
  match l with
  | [] => []
  | c :: l' => if p c then drop_while p l' else l
  end.

Definition trim (p : ascii → bool) (l : list ascii) : list ascii :=
  reverse (drop_while p (reverse (drop_while p l))).

(** [sub_whitespace] on lists of characters. *)
Fixpoint collapse (in_run : bool) (l : list ascii) : list ascii :=
  match l with
  | [] => []
  | c :: l' =>
      if is_space c
      then if in_run then collapse true l' else " "%char :: collapse true l'
      else c :: collapse false l'
  end.

(** Membership in the set of characters that [normalize_trait] strips. *)
Definition is_punctuation (c : ascii) : bool := bool_decide (c ∈ chars ".,;:").

(** The normalized traits that [deduplicate_traits] keeps, before they are
    sorted: those that are not empty, each once, in order of first
    appearance. *)
Definition kept_traits (traits : list string) : list string :=
  first_seen (filter (λ s, s ≠ "") (normalize_trait <$> traits)).

(** The frame whose rows are the rows of [df] taken [k] times over, as
    [pd.concat([df] * k)] builds it. *)
Definition repeat_frame (k : nat) (df : DataFrame) : DataFrame :=
  {| columns := columns df; records := concat (replicate k (records df)) |}.

(** * Properties *)

(** ** Lists, first occurrences and counters *)

Section list_facts.
Implicit Types (x y k : string) (l xs ks : list string).

Lemma occurrences_nil x : occurrences x [] = 0.
Proof. reflexivity. Qed.

Lemma occurrences_app x l1 l2 :
  occurrences x (l1 ++ l2) = occurrences x l1 + occurrences x l2.
Proof. unfold occurrences. by rewrite filter_app, length_app. Qed.

Lemma occurrences_singleton x y :
  occurrences x [y] = if decide (y = x) then 1 else 0.
Proof.
  unfold occurrences. rewrite filter_cons, filter_nil.
  by destruct (decide (y = x)).
Qed.

Lemma occurrences_pos x l : x ∈ l ↔ 0 < occurrences x l.
Proof.
  unfold occurrences. split.
  - intros Hx. assert (Hf : x ∈ filter (λ y, y = x) l)
      by (apply list_elem_of_filter; done).
    destruct (filter _ l); [by apply elem_of_nil in Hf | simpl; lia].
  - intros Hlen. destruct (filter (λ y, y = x) l) as [|z zs] eqn:Heq;
      [simpl in Hlen; lia|].
    assert (Hz : z ∈ filter (λ y, y = x) l) by (rewrite Heq; left).
    apply list_elem_of_filter in Hz as [-> ?]. done.
Qed.

Lemma occurrences_Permutation x l1 l2 :
  l1 ≡ₚ l2 → occurrences x l1 = occurrences x l2.
Proof. unfold occurrences. by intros ->. Qed.

Lemma index_of_cons_ne x y l : y ≠ x → index_of x (y :: l) = S (index_of x l).
Proof. intros ?. simpl. by destruct (decide (y = x)). Qed.

Lemma elem_of_first_seen x l : x ∈ first_seen l ↔ x ∈ l.
Proof.
  induction l as [|y l IH]; simpl; [done|].
  rewrite !elem_of_cons, list_elem_of_filter, IH.
  destruct (decide (x = y)); tauto.
Qed.

Lemma NoDup_first_seen l : NoDup (first_seen l).
Proof.
  induction l as [|y l IH]; simpl; [constructor|].
  constructor; [|by apply NoDup_filter].
  rewrite list_elem_of_filter. by intros [? _].
Qed.

Lemma first_seen_snoc l x :
  first_seen (l ++ [x]) = first_seen l ++ (if decide (x ∈ l) then [] else [x]).
Proof.
  induction l as [|y l IH]; simpl.
  - done.
  - rewrite IH, filter_app. f_equal. f_equal.
    destruct (decide (x ∈ l)) as [Hin|Hnin],
             (decide (x ∈ y :: l)) as [Hin'|Hnin']; simpl.
    + done.
    + exfalso. apply Hnin'. by right.
    + apply elem_of_cons in Hin' as [->|?]; [|done].
      rewrite filter_cons, decide_False; [done|]. by intros ?.
    + rewrite filter_cons, decide_True; [done|].
      intros ->. apply Hnin'. left.
Qed.

(** Filtering keeps a list sorted, also for a relation that only agrees
    on the elements kept. *)
Lemma StronglySorted_filter_impl (R R' : relation string)
    (P : string → Prop) `{∀ x, Decision (P x)} l :
  (∀ a b, P a → P b → R a b → R' a b) →
  StronglySorted R l → StronglySorted R' (filter P l).
Proof.
  intros HR. induction 1 as [|a l Hl IH Hall]; [constructor|].
  rewrite filter_cons. destruct (decide (P a)); [|done].
  constructor; [done|].
  rewrite Forall_forall in Hall |- *.
  intros b [? ?]%list_elem_of_filter. auto.
Qed.

(** [first_seen] lists the labels by increasing first position. *)
Lemma first_seen_sorted l :
  StronglySorted (λ a b, index_of a l < index_of b l) (first_seen l).
Proof.
  induction l as [|y l IH]; simpl; [constructor|].
  constructor.
  - eapply StronglySorted_filter_impl; [|exact IH].
    intros a b Ha Hb Hlt. simpl in *.
    repeat case_decide; try congruence; lia.
  - apply Forall_forall. intros b [Hb _]%list_elem_of_filter.
    repeat case_decide; try congruence; lia.
Qed.

Lemma first_seen_before l kp a kq b :
  first_seen l = kp ++ a :: kq → b ∈ kq → index_of a l < index_of b l.
Proof.
  intros Heq Hb. pose proof (first_seen_sorted l) as Hs.
  rewrite Heq in Hs. change (a :: kq) with ([a] ++ kq) in Hs.
  rewrite app_assoc in Hs.
  apply (StronglySorted_app_1_elem_of _ _ _ a b Hs); [|done].
  apply elem_of_app. right. left.
Qed.
End list_facts.

Section counter_facts.
Implicit Types (x k : string) (xs ks : list string) (c : list (string * nat)).

(** Incrementing a counter that lists distinct keys with their counts. *)
Lemma counter_incr_tally (f : string → nat) ks x :
  NoDup ks →
  counter_incr ((λ k, (k, f k)) <$> ks) x
  = ((λ k, (k, if decide (k = x) then S (f k) else f k)) <$> ks)
    ++ (if decide (x ∈ ks) then [] else [(x, 1)]).
Proof.
  induction ks as [|a ks IH]; intros Hnd; [done|].
  apply NoDup_cons in Hnd as [Ha Hnd]. csimpl.
  destruct (decide (a = x)) as [->|Hne].
  - rewrite decide_True by left. rewrite app_nil_r. f_equal.
    apply list_fmap_ext. intros i k Hk.
    rewrite decide_False; [done|].
    intros ->. apply Ha. by eapply list_elem_of_lookup_2.
  - rewrite IH by done. simpl. f_equal. f_equal.
    destruct (decide (x ∈ ks)) as [Hin|Hnin].
    + rewrite decide_True by (by right). done.
    + rewrite decide_False; [done|].
      rewrite elem_of_cons. intros [->|?]; done.
Qed.

(** A counter lists the distinct elements in the order of their first
    occurrence, each with its number of occurrences. *)
Lemma Counter_spec xs :
  Counter xs = (λ k, (k, occurrences k xs)) <$> first_seen xs.
Proof.
  induction xs as [|x xs IH] using rev_ind; [done|].
  unfold Counter in *. rewrite foldl_snoc, IH.
  rewrite counter_incr_tally by apply NoDup_first_seen.
  rewrite first_seen_snoc, fmap_app. f_equal.
  - apply list_fmap_ext. intros i k _.
    rewrite occurrences_app, occurrences_singleton.
    repeat case_decide; try congruence; f_equal; lia.
  - destruct (decide (x ∈ first_seen xs)) as [Hin|Hnin],
             (decide (x ∈ xs)) as [Hin'|Hnin']; try done.
    + exfalso. by apply Hnin', elem_of_first_seen.
    + exfalso. by apply Hnin, elem_of_first_seen.
    + csimpl. rewrite occurrences_app, occurrences_singleton.
      rewrite decide_True by done.
      destruct (occurrences x xs) eqn:Hocc; [done|].
      exfalso. apply Hnin', occurrences_pos. lia.
Qed.

(** [max_by_count] returns the first item of maximal count: the items
    before it have a strictly smaller count, the items after it a count
    that is not larger. *)
Lemma max_by_count_spec (best : string * nat) (rest : list (string * nat)) :
  ∃ pre post,
    best :: rest = pre ++ max_by_count best rest :: post
    ∧ (∀ y, y ∈ pre → y.2 < (max_by_count best rest).2)
    ∧ (∀ y, y ∈ post → y.2 ≤ (max_by_count best rest).2).
Proof.
  revert best. induction rest as [|item rest IH]; intros best; simpl.
  - exists [], []. split_and!; [done|..]; by intros y ?%elem_of_nil.
  - destruct (decide (best.2 < item.2)) as [Hlt|Hge].
    + destruct (IH item) as (pre & post & Heq & Hpre & Hpost).
      set (m := max_by_count item rest) in *. clearbody m.
      exists (best :: pre), post. split_and!; [by rewrite Heq|..|done].
      intros y [->|Hy]%elem_of_cons; [|by apply Hpre].
      destruct pre as [|p pre]; injection Heq as -> _; [done|].
      etrans; [exact Hlt|]. apply Hpre. left.
    + destruct (IH best) as (pre & post & Heq & Hpre & Hpost).
      set (m := max_by_count best rest) in *. clearbody m.
      destruct pre as [|p pre]; injection Heq as -> ->.
      * exists [], (item :: post).
        split_and!; [done|by intros y ?%elem_of_nil|].
        intros y [->|Hy]%elem_of_cons; [lia|]. by apply Hpost.
      * exists (p :: item :: pre), post. split_and!; [done|..|done].
        intros y [->|[->|Hy]%elem_of_cons]%elem_of_cons.
        -- apply Hpre. left.
        -- assert (p.2 < m.2) by (apply Hpre; left). lia.
        -- apply Hpre. by right.
Qed.

Lemma plurality_count_max w votes :
  w ∈ votes → (∀ l, occurrences l votes ≤ occurrences w votes) →
  plurality_count votes = occurrences w votes.
Proof.
  intros Hw Hmax. unfold plurality_count. apply Nat.le_antisymm.
  - assert (Hne : (λ l, occurrences l votes) <$> votes ≠ []).
    { destruct votes; [by apply elem_of_nil in Hw|done]. }
    apply max_list_elem_of in Hne.
    apply list_elem_of_fmap in Hne as (l & -> & _). apply Hmax.
  - apply max_list_elem_of_le, list_elem_of_fmap. eauto.
Qed.
End counter_facts.

(** ** The consensus resolver *)

(** The result of [calculate_consensus] on a non-empty list, in closed
    form. *)
Lemma calculate_consensus_spec (votes : list string) :
  votes ≠ [] →
  ∃ w, calculate_consensus votes
       = Ok (w, pretty (occurrences w votes) +:+ "/" +:+ pretty (length votes),
             confidence_tier (occurrences w votes))
     ∧ w ∈ votes
     ∧ (∀ l, occurrences l votes ≤ occurrences w votes)
     ∧ (∀ l, l ≠ w → occurrences l votes = occurrences w votes →
             index_of w votes < index_of l votes).
Proof.
  intros Hne. unfold calculate_consensus. rewrite Counter_spec.
  set (g := λ k, (k, occurrences k votes)).
  destruct (first_seen votes) as [|k ks] eqn:Hfs.
  { destruct votes as [|v votes]; [done|]. discriminate Hfs. }
  csimpl. unfold getitem. simpl.
  destruct (max_by_count_spec (g k) (g <$> ks)) as (pre & post & Heq & Hpre & Hpost).
  set (m := max_by_count (g k) (g <$> ks)) in *. clearbody m.
  change (g k :: (g <$> ks)) with (g <$> k :: ks) in Heq. rewrite <- Hfs in Heq.
  apply fmap_app_inv in Heq as (kp & kq' & -> & Hq & Hsplit).
  symmetry in Hq. apply fmap_cons_inv in Hq as (w & kq & -> & -> & ->).
  assert (Hw : w ∈ votes).
  { apply elem_of_first_seen. rewrite Hsplit, elem_of_app, elem_of_cons. auto. }
  assert (Hcases : ∀ l, l ∈ votes → l ∈ kp ∨ l = w ∨ l ∈ kq).
  { intros l Hl%elem_of_first_seen.
    by rewrite Hsplit, elem_of_app, elem_of_cons in Hl. }
  exists w. simpl. split_and!; [done|done|..].
  - intros l. destruct (decide (l ∈ votes)) as [Hl|Hl].
    + destruct (Hcases l Hl) as [Hp|[->|Hq]]; [|done|].
      * apply Nat.lt_le_incl, (Hpre (g l)). by apply list_elem_of_fmap_2.
      * apply (Hpost (g l)). by apply list_elem_of_fmap_2.
    + rewrite occurrences_pos in Hl. lia.
  - intros l Hlw Hocc.
    assert (Hl : l ∈ votes).
    { apply occurrences_pos. rewrite Hocc. by apply occurrences_pos. }
    destruct (Hcases l Hl) as [Hp|[->|Hq]]; [|done|].
    + assert ((g l).2 < (g w).2) by (by apply Hpre, list_elem_of_fmap_2).
      simpl in *. lia.
    + by eapply first_seen_before.
Qed.

(** C1. On every non-empty vote list [calculate_consensus] returns a label
    of the list whose number of occurrences is the largest of all labels,
    and among the labels that reach that number the one whose first
    occurrence comes first in the list; on B, A, A, B, C it returns B. *)
Theorem calculate_consensus_plurality_first_seen :
  (∀ votes : list string, votes ≠ [] →
     ∃ w ratio flag,
       calculate_consensus votes = Ok (w, ratio, flag)
       ∧ w ∈ votes
       ∧ occurrences w votes = plurality_count votes
       ∧ (∀ l, occurrences l votes ≤ occurrences w votes)
       ∧ (∀ l, occurrences l votes = occurrences w votes →
               index_of w votes ≤ index_of l votes))
  ∧ ∃ ratio flag,
      calculate_consensus ["B"; "A"; "A"; "B"; "C"] = Ok ("B", ratio, flag).
Proof.
  split.
  - intros votes Hne.
    destruct (calculate_consensus_spec votes Hne) as (w & Heq & Hw & Hmax & Htie).
    exists w. do 2 eexists. split_and!; [exact Heq|done| |done|].
    + symmetry. by apply plurality_count_max.
    + intros l Hl. destruct (decide (l = w)) as [->|Hlw]; [done|].
      by apply Nat.lt_le_incl, Htie.
  - do 2 eexists. vm_compute. reflexivity.
Qed.

Lemma calculate_consensus_plurality_first_seen_witness :
  ["B"; "A"; "A"; "B"; "C"] ≠ []
  ∧ ∃ w ratio flag,
      calculate_consensus ["B"; "A"; "A"; "B"; "C"] = Ok (w, ratio, flag)
      ∧ w ∈ ["B"; "A"; "A"; "B"; "C"]
      ∧ occurrences w ["B"; "A"; "A"; "B"; "C"]
        = plurality_count ["B"; "A"; "A"; "B"; "C"]
      ∧ (∀ l, occurrences l ["B"; "A"; "A"; "B"; "C"]
              ≤ occurrences w ["B"; "A"; "A"; "B"; "C"])
      ∧ (∀ l, occurrences l ["B"; "A"; "A"; "B"; "C"]
              = occurrences w ["B"; "A"; "A"; "B"; "C"] →
              index_of w ["B"; "A"; "A"; "B"; "C"]
              ≤ index_of l ["B"; "A"; "A"; "B"; "C"]).
Proof.
  split; [discriminate|].
  apply (proj1 calculate_consensus_plurality_first_seen); discriminate.
Defined.

(** C2. On every non-empty vote list the flag is fixed by the plurality
    count alone: green from 4 up, yellow at 3, red up to 2, whatever the
    number of votes; three agreeing votes out of three give yellow. *)
Theorem calculate_consensus_flag_thresholds :
  (∀ votes : list string, votes ≠ [] →
     ∃ w ratio flag,
       calculate_consensus votes = Ok (w, ratio, flag)
       ∧ (4 ≤ plurality_count votes → flag = GREEN)
       ∧ (plurality_count votes = 3 → flag = YELLOW)
       ∧ (plurality_count votes ≤ 2 → flag = RED))
  ∧ (∀ votes1 votes2 w1 w2 ratio1 ratio2 flag1 flag2,
       calculate_consensus votes1 = Ok (w1, ratio1, flag1) →
       calculate_consensus votes2 = Ok (w2, ratio2, flag2) →
       plurality_count votes1 = plurality_count votes2 → flag1 = flag2)
  ∧ calculate_consensus ["A"; "A"; "A"] = Ok ("A", "3/3", YELLOW)
  ∧ GREEN ≠ YELLOW ∧ YELLOW ≠ RED ∧ GREEN ≠ RED.
Proof.
  assert (Hflag : ∀ votes, votes ≠ [] →
    ∃ w ratio, calculate_consensus votes
               = Ok (w, ratio, confidence_tier (plurality_count votes))).
  { intros votes Hne.
    destruct (calculate_consensus_spec votes Hne) as (w & Heq & Hw & Hmax & _).
    exists w. eexists. rewrite Heq. by rewrite (plurality_count_max w). }
  split_and!; try done.
  - intros votes Hne. destruct (Hflag votes Hne) as (w & ratio & Heq).
    exists w, ratio, (confidence_tier (plurality_count votes)).
    split; [done|]. unfold confidence_tier.
    split_and!; intros ?; repeat case_decide; done || lia.
  - intros votes1 votes2 w1 w2 ratio1 ratio2 flag1 flag2 H1 H2 Hcount.
    destruct votes1 as [|v1 votes1]; [discriminate H1|].
    destruct votes2 as [|v2 votes2]; [discriminate H2|].
    destruct (Hflag (v1 :: votes1)) as (? & ? & H1'); [done|].
    destruct (Hflag (v2 :: votes2)) as (? & ? & H2'); [done|].
    rewrite H1' in H1. rewrite H2' in H2. simplify_eq. by rewrite Hcount.
Qed.

Lemma calculate_consensus_flag_thresholds_witness :
  ["A"; "A"; "A"] ≠ []
  ∧ ∃ w ratio flag,
      calculate_consensus ["A"; "A"; "A"] = Ok (w, ratio, flag)
      ∧ (4 ≤ plurality_count ["A"; "A"; "A"] → flag = GREEN)
      ∧ (plurality_count ["A"; "A"; "A"] = 3 → flag = YELLOW)
      ∧ (plurality_count ["A"; "A"; "A"] ≤ 2 → flag = RED).
Proof.
  split; [discriminate|].
  apply (proj1 calculate_consensus_flag_thresholds); discriminate.
Defined.

(** C4. On every non-empty vote list the agreement ratio is the plurality
    count, a slash, and the number of votes in the list, both in decimal;
    X, X, Y, X, X gives X, 4/5 and the green flag. *)
Theorem calculate_consensus_ratio :
  (∀ votes : list string, votes ≠ [] →
     ∃ w flag,
       calculate_consensus votes
       = Ok (w, pretty (plurality_count votes) +:+ "/" +:+ pretty (length votes),
             flag))
  ∧ calculate_consensus ["X"; "X"; "Y"; "X"; "X"] = Ok ("X", "4/5", "🟢").
Proof.
  split; [|done].
  intros votes Hne.
  destruct (calculate_consensus_spec votes Hne) as (w & Heq & Hw & Hmax & _).
  exists w. eexists. rewrite Heq. by rewrite (plurality_count_max w).
Qed.

Lemma calculate_consensus_ratio_witness :
  ["X"; "X"; "Y"; "X"] ≠ []
  ∧ ∃ w flag,
      calculate_consensus ["X"; "X"; "Y"; "X"]
      = Ok (w, pretty (plurality_count ["X"; "X"; "Y"; "X"]) +:+ "/"
               +:+ pretty (length ["X"; "X"; "Y"; "X"]), flag).
Proof.
  split; [discriminate|].
  apply (proj1 calculate_consensus_ratio); discriminate.
Defined.

(** C3, as stated, fails: the exception raised on the empty list is the
    index error of [most_common(1)[0]], whose message does not speak of
    votes. *)
Lemma calculate_consensus_empty_no_explicit_error :
  ¬ ∃ e, calculate_consensus [] = Raise e ∧ no_votes_error e.
Proof.
  intros (e & Heq & Hmsg). vm_compute in Heq.
  injection Heq as <-. destruct Hmsg as [i Hi]. vm_compute in Hi. discriminate Hi.
Qed.

(** C3, amended. On the empty vote list [calculate_consensus] returns no
    verdict: it raises the [IndexError] of indexing the empty result of
    [most_common(1)], with the message of a list index out of range. *)
Theorem calculate_consensus_empty_raises :
  calculate_consensus [] = Raise (IndexError "list index out of range")
  ∧ ∀ verdict, calculate_consensus [] ≠ Ok verdict.
Proof. split; [reflexivity|]. intros verdict. discriminate. Qed.

(** ** The proposal merger *)

Section merger_facts.
Implicit Types (mp : list (string * list string)) (t : Z).

Lemma count_proposals_spec mp : count_proposals mp = Counter (all_proposals mp).
Proof.
  unfold count_proposals, Counter. generalize (@nil (string * nat)).
  induction mp as [|mc mp IH]; intros c; [done|].
  unfold all_proposals. csimpl. rewrite foldl_app, foldl_fmap. apply IH.
Qed.

(** The list that [merge_umbrella_proposals] sorts: the distinct
    normalized proposals that reach the threshold. *)
Lemma unified_spec mp t :
  (filter (λ cc : string * nat, (t ≤ Z.of_nat cc.2)%Z) (count_proposals mp)).*1
  = filter (λ k, (t ≤ Z.of_nat (occurrences k (all_proposals mp)))%Z)
           (first_seen (all_proposals mp)).
Proof.
  rewrite count_proposals_spec, Counter_spec.
  induction (first_seen (all_proposals mp)) as [|k ks IH]; [done|].
  csimpl. rewrite !filter_cons. simpl.
  case_decide; csimpl; by rewrite IH.
Qed.

Lemma merge_umbrella_proposals_Permutation mp t :
  merge_umbrella_proposals mp t
  ≡ₚ filter (λ k, (t ≤ Z.of_nat (occurrences k (all_proposals mp)))%Z)
            (first_seen (all_proposals mp)).
Proof.
  unfold merge_umbrella_proposals, sorted.
  by rewrite merge_sort_Permutation, unified_spec.
Qed.

Lemma merge_umbrella_proposals_sorted mp t :
  StronglySorted String.le (merge_umbrella_proposals mp t).
Proof. apply (StronglySorted_merge_sort _). Qed.

Lemma merge_umbrella_proposals_NoDup mp t :
  NoDup (merge_umbrella_proposals mp t).
Proof.
  rewrite merge_umbrella_proposals_Permutation.
  apply NoDup_filter, NoDup_first_seen.
Qed.

Lemma elem_of_merge_umbrella_proposals mp t s :
  s ∈ merge_umbrella_proposals mp t
  ↔ s ∈ all_proposals mp ∧ (t ≤ Z.of_nat (occurrences s (all_proposals mp)))%Z.
Proof.
  rewrite merge_umbrella_proposals_Permutation.
  rewrite list_elem_of_filter, elem_of_first_seen. tauto.
Qed.

(** A duplicate-free ascending list is fixed by its elements. *)
Lemma sorted_NoDup_ext (l1 l2 : list string) :
  StronglySorted String.le l1 → NoDup l1 →
  StronglySorted String.le l2 → NoDup l2 →
  (∀ s, s ∈ l1 ↔ s ∈ l2) → l1 = l2.
Proof.
  intros Hs1 Hn1 Hs2 Hn2 Hext.
  apply (StronglySorted_unique String.le); [done..|].
  by apply NoDup_Permutation.
Qed.
End merger_facts.

(** C5. For every mapping and threshold [merge_umbrella_proposals] returns
    the ascending, duplicate-free list of exactly those normalized
    proposals whose number of occurrences over the lists of all sources
    together reaches the threshold, a proposal repeated by one source
    counting each time; the list is fixed by these properties. Foo, foo
    with a trailing blank and FOO from three sources and bar from a fourth
    give foo alone at threshold 3. *)
Theorem merge_umbrella_proposals_spec :
  (∀ (mp : list (string * list string)) (t : Z),
     let merged := merge_umbrella_proposals mp t in
     StronglySorted String.le merged
     ∧ NoDup merged
     ∧ (∀ s, s ∈ merged
             ↔ s ∈ all_proposals mp
               ∧ (t ≤ Z.of_nat (occurrences s (all_proposals mp)))%Z)
     ∧ (∀ l, StronglySorted String.le l → NoDup l →
             (∀ s, s ∈ l
                   ↔ s ∈ all_proposals mp
                     ∧ (t ≤ Z.of_nat (occurrences s (all_proposals mp)))%Z) →
             l = merged))
  ∧ merge_umbrella_proposals
      [("a", ["Foo"]); ("b", ["foo "]); ("c", ["FOO"]); ("d", ["bar"])] 3
    = ["foo"]
  ∧ merge_umbrella_proposals [("a", ["Foo"; " foo"; "FOO "]); ("b", ["bar"])] 3
    = ["foo"].
Proof.
  split; [|split; vm_compute; reflexivity].
  intros mp t merged. subst merged. split_and!.
  - apply merge_umbrella_proposals_sorted.
  - apply merge_umbrella_proposals_NoDup.
  - apply elem_of_merge_umbrella_proposals.
  - intros l Hs Hn Hl. apply sorted_NoDup_ext; [done|done|..].
    + apply merge_umbrella_proposals_sorted.
    + apply merge_umbrella_proposals_NoDup.
    + intros s. by rewrite Hl, elem_of_merge_umbrella_proposals.
Qed.

(** C9. Two input mappings that hold the same entries, enumerated in
    different orders, give the same merged list. *)
Theorem merge_umbrella_proposals_order_independent
    (mp1 mp2 : list (string * list string)) (t : Z) :
  mp1 ≡ₚ mp2 → merge_umbrella_proposals mp1 t = merge_umbrella_proposals mp2 t.
Proof.
  intros Hperm.
  assert (Hall : all_proposals mp1 ≡ₚ all_proposals mp2)
    by (unfold all_proposals; by rewrite Hperm).
  apply sorted_NoDup_ext;
    auto using merge_umbrella_proposals_sorted, merge_umbrella_proposals_NoDup.
  intros s. rewrite !elem_of_merge_umbrella_proposals.
  by rewrite (occurrences_Permutation s _ _ Hall), Hall.
Qed.

Lemma merge_umbrella_proposals_order_independent_witness :
  [("a", ["Foo"; "Bar"]); ("b", ["bar "; "foo"])]
  ≡ₚ [("b", ["bar "; "foo"]); ("a", ["Foo"; "Bar"])]
  ∧ merge_umbrella_proposals [("a", ["Foo"; "Bar"]); ("b", ["bar "; "foo"])] 2
    = merge_umbrella_proposals [("b", ["bar "; "foo"]); ("a", ["Foo"; "Bar"])] 2.
Proof.
  split; [apply perm_swap|].
  apply merge_umbrella_proposals_order_independent, perm_swap.
Defined.

(** ** Dictionaries *)

Section dict_facts.
Context {K V : Type} `{EqDecision K}.
Implicit Types (d e : list (K * V)) (k : K) (v : V).

Lemma Dict_set_fresh d k v : k ∉ Dict.keys d → Dict.set d k v = d ++ [(k, v)].
Proof.
  unfold Dict.keys. induction d as [|[k' v'] d IH]; csimpl; [done|].
  rewrite not_elem_of_cons. intros [Hne Hnin].
  rewrite decide_False by done. by rewrite IH.
Qed.

Lemma Dict_update_fresh d e :
  NoDup (Dict.keys e) → (∀ k, k ∈ Dict.keys e → k ∉ Dict.keys d) →
  Dict.update d e = d ++ e.
Proof.
  unfold Dict.update, Dict.keys. revert d.
  induction e as [|[k v] e IH]; intros d Hnd Hdisj; csimpl in *.
  - by rewrite app_nil_r.
  - apply NoDup_cons in Hnd as [Hk Hnd].
    rewrite Dict_set_fresh by (apply Hdisj; left).
    rewrite IH; [by rewrite <- app_assoc|done|].
    intros k' Hk'. rewrite fmap_app, not_elem_of_app. split.
    + apply Hdisj. by right.
    + csimpl. rewrite list_elem_of_singleton. by intros ->.
Qed.

Lemma Dict_get_app d e k :
  Dict.get (d ++ e) k
  = match Dict.get d k with Some v => Some v | None => Dict.get e k end.
Proof.
  induction d as [|[k' v'] d IH]; simpl; [done|]. by case_decide.
Qed.

Lemma Dict_get_Some_keys d k v : Dict.get d k = Some v → k ∈ Dict.keys d.
Proof.
  unfold Dict.keys. induction d as [|[k' v'] d IH]; csimpl; [done|].
  case_decide; [intros _; subst; left|intros ?; right; auto].
Qed.

Lemma Dict_get_tabulate (f : K → V) (ks : list K) k :
  k ∈ ks → Dict.get ((λ k, (k, f k)) <$> ks) k = Some (f k).
Proof.
  induction ks as [|k' ks IH]; csimpl; [by intros ?%elem_of_nil|].
  intros [->|Hk]%elem_of_cons; [by rewrite decide_True|].
  case_decide; [by subst|auto].
Qed.
End dict_facts.

(** ** The phase aggregators *)

Section aggregator_facts.
Implicit Types (mr : list (string * list (string * string))).
Implicit Types (item : string) (items : list string).

Lemma elem_of_all_items mr item : item ∈ all_items mr ↔ observed mr item.
Proof.
  unfold all_items, observed.
  assert (Hgen : ∀ acc : gset string,
    item ∈ foldl (λ (acc : gset string) e, acc ∪ list_to_set (Dict.keys e.2))
             acc mr
    ↔ item ∈ acc ∨ ∃ source results,
        (source, results) ∈ mr ∧ item ∈ Dict.keys results).
  { induction mr as [|[src res] mr IH]; intros acc; simpl.
    - split; [auto|]. intros [?|(? & ? & []%elem_of_nil & _)]. done.
    - rewrite IH, elem_of_union, elem_of_list_to_set. split.
      + intros [[?|?]|(src' & res' & ? & ?)]; [auto|right..].
        * exists src, res. split; [left|done].
        * exists src', res'. split; [by right|done].
      + intros [?|(src' & res' & [?|?]%elem_of_cons & ?)];
          [auto| |right; eauto]. simplify_eq. auto. }
  rewrite Hgen. split; [|auto]. by intros [?%elem_of_empty|?].
Qed.

(** The loop over the panel, for any list of distinct sources. *)
Lemma panel_loop_spec mr item (models : list string) votes model_votes :
  NoDup models → (∀ m, m ∈ models → m ∉ Dict.keys model_votes) →
  foldl (λ acc model,
           let '(votes, model_votes) := acc in
           match Dict.get mr model with
           | Some results =>
               match Dict.get results item with
               | Some vote =>
                   (votes ++ [vote], Dict.set model_votes model (Some vote))
               | None => (votes, Dict.set model_votes model None)
               end
           | None => (votes, Dict.set model_votes model None)
           end)
        (votes, model_votes) models
  = (votes ++ omap (λ m, panel_vote mr m item) models,
     model_votes ++ ((λ m, (m, panel_vote mr m item)) <$> models)).
Proof.
  revert votes model_votes.
  induction models as [|m models IH]; intros votes model_votes Hnd Hdisj.
  { simpl. by rewrite !app_nil_r. }
  apply NoDup_cons in Hnd as [Hm Hnd].
  assert (Hfresh : m ∉ Dict.keys model_votes) by (apply Hdisj; left).
  assert (Hrest : ∀ o, ∀ m', m' ∈ models →
            m' ∉ Dict.keys (model_votes ++ [(m, o)])).
  { intros o m' Hm'. unfold Dict.keys. rewrite fmap_app, not_elem_of_app.
    split; [apply Hdisj; by right|].
    csimpl. rewrite list_elem_of_singleton. by intros ->. }
  assert (Hpv : panel_vote mr m item
                = match Dict.get mr m with
                  | Some results => Dict.get results item
                  | None => None
                  end)
    by (unfold panel_vote; by destruct (Dict.get mr m)).
  simpl foldl. rewrite fmap_cons.
  change (omap (λ m, panel_vote mr m item) (m :: models))
    with (match panel_vote mr m item with
          | Some y => y :: omap (λ m, panel_vote mr m item) models
          | None => omap (λ m, panel_vote mr m item) models
          end).
  rewrite Hpv.
  destruct (Dict.get mr m) as [results|];
    [destruct (Dict.get results item) as [vote|]|];
    rewrite Dict_set_fresh by done; rewrite IH by auto;
    by rewrite <- ?app_assoc.
Qed.

Lemma panel_votes_spec mr item :
  panel_votes mr item
  = (present_votes mr item, (λ m, (m, panel_vote mr m item)) <$> MODELS).
Proof.
  unfold panel_votes. rewrite panel_loop_spec; [done|..].
  - apply (bool_decide_unpack _). by vm_compute.
  - intros m _. apply not_elem_of_nil.
Qed.

Lemma present_votes_nil mr item :
  present_votes mr item = [] ↔ ∀ m, m ∈ MODELS → panel_vote mr m item = None.
Proof.
  unfold present_votes. induction MODELS as [|m ms IH]; csimpl.
  - split; [by intros _ m ?%elem_of_nil|done].
  - destruct (panel_vote mr m item) eqn:Hm.
    + split; [done|]. intros Hall.
      specialize (Hall m (list_elem_of_here _ _)). congruence.
    + rewrite IH. split.
      * intros Hall m' [->|?]%elem_of_cons; auto.
      * intros Hall m' ?. apply Hall. by right.
Qed.

(** The present votes depend on the entries of the panel sources only. *)
Lemma present_votes_panel mr mr' item :
  (∀ m, m ∈ MODELS → Dict.get mr m = Dict.get mr' m) →
  present_votes mr item = present_votes mr' item.
Proof.
  unfold present_votes, panel_vote. induction MODELS as [|m ms IH]; [done|].
  intros Hagree. csimpl. rewrite (Hagree m) by left.
  rewrite IH; [done|]. intros m' ?. apply Hagree. by right.
Qed.

(** The items that get a row: ascending, distinct, observed and voted. *)
Lemma voted_items_sorted mr :
  StronglySorted String.le
    (filter (λ i, present_votes mr i ≠ []) (sorted (elements (all_items mr)))).
Proof.
  eapply StronglySorted_filter_impl; [by intros a b _ _ ?|].
  apply (StronglySorted_merge_sort _).
Qed.

Lemma voted_items_NoDup mr :
  NoDup (filter (λ i, present_votes mr i ≠ [])
                (sorted (elements (all_items mr)))).
Proof.
  apply NoDup_filter. unfold sorted. rewrite merge_sort_Permutation.
  apply NoDup_elements.
Qed.

Lemma elem_of_voted_items mr item :
  item ∈ filter (λ i, present_votes mr i ≠ [])
                (sorted (elements (all_items mr)))
  ↔ observed mr item ∧ present_votes mr item ≠ [].
Proof.
  rewrite list_elem_of_filter. unfold sorted.
  rewrite merge_sort_Permutation, elem_of_elements, elem_of_all_items. tauto.
Qed.

Lemma voted_items_length mr :
  length (filter (λ i, present_votes mr i ≠ [])
                 (sorted (elements (all_items mr))))
  = size (all_items mr)
    - size (filter (λ i, present_votes mr i = []) (all_items mr)).
Proof.
  set (S := all_items mr). set (l := sorted (elements S)).
  assert (Hl : l ≡ₚ elements S) by apply merge_sort_Permutation.
  assert (Hsplit : length l
                   = length (filter (λ i, present_votes mr i ≠ []) l)
                     + length (filter (λ i, ¬ present_votes mr i ≠ []) l)).
  { rewrite <- length_app. apply Permutation_length. symmetry.
    apply filter_app_complement. }
  assert (Hnone : filter (λ i, ¬ present_votes mr i ≠ []) l
                  ≡ₚ elements (filter (λ i, present_votes mr i = []) S)).
  { apply NoDup_Permutation.
    - apply NoDup_filter. rewrite Hl. apply NoDup_elements.
    - apply NoDup_elements.
    - intros i. rewrite list_elem_of_filter, Hl, !elem_of_elements.
      rewrite elem_of_filter.
      destruct (decide (present_votes mr i = [])); tauto. }
  unfold size, set_size. simpl.
  rewrite <- Hnone, <- Hl, Hsplit. lia.
Qed.

Section rows.
Context (item_col label_col : string).
Hypothesis columns_distinct :
  NoDup ([item_col; label_col; "agreement"; "flag"] ++ MODELS).

Local Lemma item_col_fresh : item_col ∉ MODELS.
Proof.
  apply NoDup_cons in columns_distinct as [Hnin _].
  intros ?. apply Hnin. by do 3 right.
Qed.

Local Lemma label_col_fresh : label_col ∉ MODELS.
Proof.
  apply NoDup_cons in columns_distinct as [_ [Hnin _]%NoDup_cons].
  intros ?. apply Hnin. by do 2 right.
Qed.

(** The loop over the items appends the row of every item that has a
    present vote, and never raises. *)
Lemma aggregate_rows_spec mr items rows :
  ∃ rows',
    aggregate_rows item_col label_col mr items rows = Ok (rows ++ rows')
    ∧ Forall2 (verdict_row item_col label_col mr)
              (filter (λ i, present_votes mr i ≠ []) items) rows'.
Proof.
  revert rows. induction items as [|item items IH]; intros rows.
  { exists []. simpl. by rewrite app_nil_r. }
  simpl. rewrite panel_votes_spec, filter_cons.
  destruct (present_votes mr item) as [|v vs] eqn:Hvotes.
  { rewrite decide_False by (by intros ?). apply IH. }
  rewrite decide_True by done.
  destruct (calculate_consensus_spec (v :: vs)) as (w & Heq & _); [done|].
  rewrite Heq. unfold rbind at 1. cbv beta iota zeta.
  rewrite Dict_update_fresh.
  - edestruct IH as (rows' & -> & Hrows'). eexists (_ :: rows').
    split; [by rewrite <- app_assoc|].
    constructor; [|done]. do 3 eexists. by rewrite Hvotes.
  - unfold Dict.keys. rewrite <- list_fmap_compose, list_fmap_id.
    apply (bool_decide_unpack _). by vm_compute.
  - unfold Dict.keys. rewrite <- list_fmap_compose, list_fmap_id.
    intros k Hk. apply (NoDup_app _ MODELS) in columns_distinct.
    destruct columns_distinct as (_ & Hdisj & _). intros Hin.
    by apply (Hdisj k).
Qed.

Lemma aggregate_results_spec mr :
  ∃ rows,
    aggregate_results item_col label_col mr = Ok (pd_DataFrame rows)
    ∧ Forall2 (verdict_row item_col label_col mr)
              (filter (λ i, present_votes mr i ≠ [])
                      (sorted (elements (all_items mr)))) rows.
Proof.
  unfold aggregate_results.
  destruct (aggregate_rows_spec mr (sorted (elements (all_items mr))) [])
    as (rows & -> & Hrows).
  by exists rows.
Qed.

(** The cells of the row of an item. *)
Lemma verdict_row_cells mr item row :
  verdict_row item_col label_col mr item row →
  ∃ consensus agreement flag,
    calculate_consensus (present_votes mr item)
    = Ok (consensus, agreement, flag)
    ∧ Dict.get row item_col = Some (Some item)
    ∧ Dict.get row label_col = Some (Some consensus)
    ∧ Dict.get row "agreement" = Some (Some agreement)
    ∧ Dict.get row "flag" = Some (Some flag)
    ∧ ∀ m, m ∈ MODELS → Dict.get row m = Some (panel_vote mr m item).
Proof.
  intros (w & a & f & Heq & ->). exists w, a, f. split; [done|].
  pose proof columns_distinct as Hnd.
  apply NoDup_cons in Hnd as [H1 Hnd]. apply NoDup_cons in Hnd as [H2 Hnd].
  apply NoDup_cons in Hnd as [H3 Hnd]. apply NoDup_cons in Hnd as [H4 Hnd].
  apply not_elem_of_cons in H1
    as (? & (? & (? & H1)%not_elem_of_cons)%not_elem_of_cons).
  apply not_elem_of_cons in H2 as (? & (? & H2)%not_elem_of_cons).
  apply not_elem_of_cons in H3 as (? & H3).
  split_and!;
    try (simpl; rewrite ?decide_False by done; by rewrite ?decide_True).
  intros m Hm. rewrite Dict_get_app.
  assert (Hnone : Dict.get [(item_col, Some item); (label_col, Some w);
                            ("agreement", Some a); ("flag", Some f)] m
                  = None).
  { simpl. rewrite !decide_False; [done|..]; by intros <-. }
  rewrite Hnone. by apply (Dict_get_tabulate (λ m, panel_vote mr m item)).
Qed.

Lemma aggregate_results_rows mr :
  ∃ df, aggregate_results item_col label_col mr = Ok df
        ∧ one_row_per_voted_item item_col mr df
        ∧ panel_votes_only item_col label_col mr df.
Proof.
  destruct (aggregate_results_spec mr) as (rows & -> & Hrows).
  eexists; split; [done|].
  set (items := filter (λ i, present_votes mr i ≠ [])
                       (sorted (elements (all_items mr)))) in *.
  assert (Hcol : column item_col (pd_DataFrame rows)
                 = (λ i, Some (Some i)) <$> items).
  { unfold column. simpl. clearbody items.
    induction Hrows as [|i row its rows Hrow _ IH]; [done|].
    csimpl. rewrite IH. f_equal.
    by destruct (verdict_row_cells _ _ _ Hrow) as (? & ? & ? & _ & -> & _). }
  split.
  - exists items. split_and!.
    + done.
    + apply voted_items_sorted.
    + apply voted_items_NoDup.
    + apply elem_of_voted_items.
    + simpl. rewrite <- (Forall2_length _ _ _ Hrows).
      apply voted_items_length.
    + simpl. eapply Forall2_impl; [exact Hrows|].
      intros i row Hrow.
      by destruct (verdict_row_cells _ _ _ Hrow) as (? & ? & ? & _ & _ & _ & _ & _ & ?).
  - split.
    + simpl. eapply Forall2_Forall_r; [exact Hrows|].
      apply Forall_forall. intros i _ row Hrow.
      destruct (verdict_row_cells _ _ _ Hrow)
        as (w & a & f & ? & ? & ? & ? & ? & _).
      by exists i, w, a, f.
    + intros i Hnone. rewrite Hcol.
      rewrite list_elem_of_fmap. intros (i' & Hii' & Hi).
      injection Hii' as <-.
      apply elem_of_voted_items in Hi as [_ Hi].
      by apply Hi, present_votes_nil.
Qed.
End rows.
End aggregator_facts.

(** The column names of the two aggregators do not clash with the panel. *)
Lemma phase2_columns_distinct :
  NoDup (["trait"; "umbrella"; "agreement"; "flag"] ++ MODELS).
Proof. apply (bool_decide_unpack _). by vm_compute. Qed.

Lemma phase3_columns_distinct :
  NoDup (["umbrella"; "final_category"; "agreement"; "flag"] ++ MODELS).
Proof. apply (bool_decide_unpack _). by vm_compute. Qed.

(** C6. For every input mapping both aggregators return a frame, without
    raising, that has exactly one row per observed item key with at least
    one present vote, the rows in ascending order of the item key; the
    number of rows is the number of distinct observed item keys less the
    number of those without a present vote, and every row records the
    vote of every panel source, [None] for a source that lacks the item. *)
Theorem aggregate_phase_results_rows
    (model_results : list (string * list (string * string))) :
  (∀ i, i ∈ all_items model_results ↔ observed model_results i)
  ∧ ∃ df2 df3,
      aggregate_phase2_results model_results = Ok df2
      ∧ aggregate_phase3_results model_results = Ok df3
      ∧ one_row_per_voted_item "trait" model_results df2
      ∧ one_row_per_voted_item "umbrella" model_results df3.
Proof.
  split; [apply elem_of_all_items|].
  destruct (aggregate_results_rows _ _ phase2_columns_distinct model_results)
    as (df2 & H2 & Hrows2 & _).
  destruct (aggregate_results_rows _ _ phase3_columns_distinct model_results)
    as (df3 & H3 & Hrows3 & _).
  by exists df2, df3.
Qed.

(** C10. In both aggregators the union of item keys is taken over every
    entry of the input mapping, while the votes are those of the five
    panel sources only: the present votes of an item do not change with
    the entries of other sources, the verdict of every row is the
    consensus of the present panel votes, and an item that no panel source
    has gets no row. With claude voting U on t1 and a source outside the
    panel voting V on t1 and Z on t9, the one row is t1 with U at 1/1. *)
Theorem aggregate_phase_results_panel_only :
  (∀ model_results : list (string * list (string * string)),
     (∀ i, i ∈ all_items model_results ↔ observed model_results i)
     ∧ (∀ model_results' i,
          (∀ m, m ∈ MODELS →
                Dict.get model_results m = Dict.get model_results' m) →
          present_votes model_results i = present_votes model_results' i)
     ∧ ∃ df2 df3,
         aggregate_phase2_results model_results = Ok df2
         ∧ aggregate_phase3_results model_results = Ok df3
         ∧ panel_votes_only "trait" "umbrella" model_results df2
         ∧ panel_votes_only "umbrella" "final_category" model_results df3)
  ∧ aggregate_phase2_results
      [("claude", [("t1", "U")]); ("other", [("t1", "V"); ("t9", "Z")])]
    = Ok (pd_DataFrame
            [[("trait", Some "t1"); ("umbrella", Some "U");
              ("agreement", Some "1/1"); ("flag", Some RED);
              ("claude", Some "U"); ("gpt5", None); ("gemini", None);
              ("deepseek", None); ("grok", None)]])
  ∧ aggregate_phase3_results
      [("claude", [("t1", "U")]); ("other", [("t1", "V"); ("t9", "Z")])]
    = Ok (pd_DataFrame
            [[("umbrella", Some "t1"); ("final_category", Some "U");
              ("agreement", Some "1/1"); ("flag", Some RED);
              ("claude", Some "U"); ("gpt5", None); ("gemini", None);
              ("deepseek", None); ("grok", None)]]).
Proof.
  split; [|split; vm_compute; reflexivity].
  intros model_results. split_and!.
  - apply elem_of_all_items.
  - intros model_results' i. apply present_votes_panel.
  - destruct (aggregate_results_rows _ _ phase2_columns_distinct model_results)
      as (df2 & H2 & _ & Hpanel2).
    destruct (aggregate_results_rows _ _ phase3_columns_distinct model_results)
      as (df3 & H3 & _ & Hpanel3).
    by exists df2, df3.
Qed.

(** ** The summary reporter *)

(** C7, as stated, fails: on the frame without rows and without columns,
    which [pd.DataFrame] builds from the empty list, the lookup of the
    flag column raises [KeyError] before any division. *)
Lemma generate_summary_stats_empty_not_zero_division :
  ¬ ∀ (df : DataFrame) (flag_column : string),
      len df = 0 →
      ∃ msg, generate_summary_stats df flag_column
             = Raise (ZeroDivisionError msg).
Proof.
  intros Hclaim.
  destruct (Hclaim (pd_DataFrame []) "flag" eq_refl) as [msg Hmsg].
  vm_compute in Hmsg. discriminate Hmsg.
Qed.

(** C7, amended. On a frame without rows [generate_summary_stats] never
    returns a statistics record: it raises [ZeroDivisionError] when the
    frame has the flag column and [KeyError] for that column when the
    frame lacks it, as the frame does that the aggregators build from an
    empty input. *)
Theorem generate_summary_stats_empty_raises :
  (∀ (cols : list string) (flag_column : string),
     generate_summary_stats {| columns := cols; records := [] |} flag_column
     = Raise (if decide (flag_column ∈ cols)
              then ZeroDivisionError "division by zero"
              else KeyError flag_column))
  ∧ aggregate_phase2_results [] = Ok {| columns := []; records := [] |}
  ∧ aggregate_phase3_results [] = Ok {| columns := []; records := [] |}.
Proof.
  split; [|split; vm_compute; reflexivity].
  intros cols flag_column.
  unfold generate_summary_stats, df_getitem. simpl.
  by destruct (decide (flag_column ∈ cols)).
Qed.

(** *** The float model *)

(** The model agrees with the binary64 operations of the kernel, ties
    included. *)
Example round_nearest_third : round_nearest (1 # 3) = double_value (1 / 3)%float.
Proof. vm_compute. reflexivity. Qed.

Example round_nearest_tie_even :
  round_nearest 9007199254740993 = double_value (9007199254740992)%float
  ∧ round_nearest 9007199254740995 = double_value (9007199254740996)%float.
Proof. split; vm_compute; reflexivity. Qed.

Example float_mul_third :
  float_mul (round_nearest (1 # 3)) 100 = double_value (1 / 3 * 100)%float.
Proof. vm_compute. reflexivity. Qed.

Example percentage_third : percentage 1 3 = double_value (0x1.0a66666666666p+5)%float.
Proof. vm_compute. reflexivity. Qed.

(** One in sixteen is 6.25 percent, a tie that goes to 6.2; one in two
    thousand is a double just above 0.05 percent and goes to 0.1. *)
Example percentage_ties :
  percentage 1 16 = double_value (0x1.8cccccccccccdp+2)%float
  ∧ percentage 1 2000 = double_value (0x1.999999999999ap-4)%float
  ∧ percentage 999 1000 = double_value (0x1.8f9999999999ap+6)%float.
Proof. split_and!; vm_compute; reflexivity. Qed.

Section float_facts.
Local Open Scope Q_scope.

Lemma round_half_even_error q : Qabs (inject_Z (round_half_even q) - q) <= 1 # 2.
Proof.
  unfold round_half_even.
  pose proof (Qfloor_le q) as Hlo. pose proof (Qlt_floor q) as Hhi.
  rewrite inject_Z_plus in Hhi. change (inject_Z 1) with 1 in Hhi.
  apply Qabs_Qle_condition.
  destruct (q - inject_Z (Qfloor q) ?= 1 # 2) eqn:Hc.
  - apply Qeq_alt in Hc. destruct (Z.even (Qfloor q));
      rewrite ?inject_Z_plus; change (inject_Z 1) with 1; lra.
  - apply Qlt_alt in Hc. lra.
  - apply Qgt_alt in Hc. rewrite inject_Z_plus. change (inject_Z 1) with 1. lra.
Qed.

Lemma round_half_even_nonneg q : 0 <= q → (0 ≤ round_half_even q)%Z.
Proof.
  intros Hq. assert (0 ≤ Qfloor q)%Z.
  { change 0%Z with (Qfloor 0). by apply Qfloor_resp_le. }
  unfold round_half_even.
  destruct (q - inject_Z (Qfloor q) ?= 1 # 2); [destruct (Z.even _)|..]; lia.
Qed.

Lemma Qpower_2_pos (e : Z) : 0 < 2 ^ e.
Proof. apply Qpower_0_lt. reflexivity. Qed.

(** The two powers of two around a positive rational. *)
Lemma log2_quotient_bounds q :
  0 < q →
  2 ^ (Z.log2 (Qnum q) - Z.log2 (Zpos (Qden q)) - 1) <= q
  ∧ q < 2 ^ (Z.log2 (Qnum q) - Z.log2 (Zpos (Qden q)) + 1).
Proof.
  intros Hq. set (a := Qnum q). set (b := Zpos (Qden q)).
  assert (Ha : (0 < a)%Z).
  { unfold a. destruct q as [n d]. unfold Qlt in Hq. simpl in *. lia. }
  destruct (Z.log2_spec a Ha) as [Hla Hla'].
  destruct (Z.log2_spec b ltac:(done)) as [Hlb Hlb'].
  pose proof (Z.log2_nonneg a). pose proof (Z.log2_nonneg b).
  split.
  - replace (Z.log2 a - Z.log2 b - 1)%Z
      with (Z.log2 a + - Z.succ (Z.log2 b))%Z by lia.
    rewrite Qpower_plus by done. rewrite Qpower_opp.
    change 2 with (inject_Z 2).
    rewrite <- (Zpower_Qpower 2 (Z.log2 a)),
            <- (Zpower_Qpower 2 (Z.succ (Z.log2 b))) by lia.
    set (pa := (2 ^ Z.log2 a)%Z) in *.
    set (pb := (2 ^ Z.succ (Z.log2 b))%Z) in *.
    assert (0 < pb)%Z by lia. assert (0 < pa)%Z by (unfold pa; lia).
    clearbody pa pb. destruct pb as [|pb'|pb']; try lia.
    destruct q as [n d]. unfold Qle, Qmult, Qinv, a, b in *. simpl in *. nia.
  - replace (Z.log2 a - Z.log2 b + 1)%Z
      with (Z.succ (Z.log2 a) + - Z.log2 b)%Z by lia.
    rewrite Qpower_plus by done. rewrite Qpower_opp.
    change 2 with (inject_Z 2).
    rewrite <- (Zpower_Qpower 2 (Z.succ (Z.log2 a))),
            <- (Zpower_Qpower 2 (Z.log2 b)) by lia.
    set (pa := (2 ^ Z.succ (Z.log2 a))%Z) in *.
    set (pb := (2 ^ Z.log2 b)%Z) in *.
    assert (0 < pb)%Z by (unfold pb; lia). assert (0 < pa)%Z by lia.
    clearbody pa pb. destruct pb as [|pb'|pb']; try lia.
    destruct q as [n d]. unfold Qlt, Qmult, Qinv, a, b in *. simpl in *. nia.
Qed.

(** [binade] is the exponent of the binade of a positive rational. *)
Lemma binade_spec q : 0 < q → 2 ^ binade q <= q ∧ q < 2 ^ (binade q + 1).
Proof.
  intros Hq. destruct (log2_quotient_bounds q Hq) as [Hlo Hhi].
  unfold binade.
  destruct (Qle_bool (2 ^ (Z.log2 (Qnum q) - Z.log2 (Zpos (Qden q)))) q)
    eqn:Htest.
  - split; [by apply Qle_bool_iff|done].
  - split; [done|].
    replace (Z.log2 (Qnum q) - Z.log2 (Z.pos (Qden q)) - 1 + 1)%Z
      with (Z.log2 (Qnum q) - Z.log2 (Z.pos (Qden q)))%Z by lia.
    apply Qnot_le_lt. intros Hle. apply Qle_bool_iff in Hle. congruence.
Qed.

(** Rounding to a double moves a positive number by at most half a unit
    in the last place, which is at most [2 ^ -53] of the number. *)
Lemma nearest_double_error q :
  0 < q → Qabs (nearest_double q - q) <= q * (1 # 2 ^ 53).
Proof.
  intros Hq. unfold nearest_double. rewrite Qred_correct.
  set (e := binade q).
  destruct (binade_spec q Hq) as [He _]. fold e in He.
  pose proof (round_half_even_error (q * 2 ^ (52 - e))) as Hm.
  set (m := inject_Z (round_half_even (q * 2 ^ (52 - e)))) in *.
  pose proof (Qpower_2_pos (e - 52)) as Hp.
  assert (Hinv : 2 ^ (52 - e) * 2 ^ (e - 52) == 1).
  { rewrite <- Qpower_plus by done.
    by replace (52 - e + (e - 52))%Z with 0%Z by lia. }
  assert (Hscale : 2 ^ e == 2 ^ (e - 52) * 2 ^ 52).
  { rewrite <- Qpower_plus by done. by replace (e - 52 + 52)%Z with e by lia. }
  set (p := 2 ^ (e - 52)) in *. set (p' := 2 ^ (52 - e)) in *.
  set (pe := 2 ^ e) in *.
  assert (Hdiff : m * p - q == (m - q * p') * p).
  { transitivity (m * p - q * (p' * p)); [rewrite Hinv|]; ring. }
  rewrite Hdiff, Qabs_Qmult, (Qabs_pos p) by lra.
  assert (Hhalf : Qabs (m - q * p') * p <= (1 # 2) * p).
  { apply Qmult_le_compat_r; [done|lra]. }
  change (2 ^ 52) with 4503599627370496 in Hscale.
  change (1 # 2 ^ 53) with (1 # 9007199254740992).
  lra.
Qed.

Lemma round_nearest_error q :
  0 <= q → Qabs (round_nearest q - q) <= q * (1 # 2 ^ 53).
Proof.
  intros Hq. unfold round_nearest. destruct (q ?= 0) eqn:Hc.
  - apply Qeq_alt in Hc. rewrite Hc. by vm_compute.
  - apply Qlt_alt in Hc. lra.
  - apply Qgt_alt in Hc. by apply nearest_double_error.
Qed.

(** The rounding of a number between 0 and [bound]. *)
Lemma round_nearest_bounds q bound :
  0 <= q <= bound →
  q - bound * (1 # 2 ^ 53) <= round_nearest q <= q + bound * (1 # 2 ^ 53)
  ∧ 0 <= round_nearest q.
Proof.
  intros [Hq Hb]. pose proof (round_nearest_error q Hq) as Herr.
  apply Qabs_Qle_condition in Herr.
  change (1 # 2 ^ 53) with (1 # 9007199254740992) in *.
  split; [split|]; lra.
Qed.

(** A computed percentage is within 0.06 of the exact one. *)
Lemma percentage_error (count total : nat) :
  (0 < total)%nat → (count ≤ total)%nat →
  Qabs (percentage count total - 100 * (Z.of_nat count # Pos.of_nat total))
  <= 6 # 100.
Proof.
  intros Htotal Hc. unfold percentage, float_round, float_mul.
  set (q0 := Z.of_nat count # Pos.of_nat total).
  assert (Hq0 : 0 <= q0 <= 1).
  { unfold q0, Qle. simpl. lia. }
  destruct (round_nearest_bounds q0 1 Hq0) as [Hr1 Hr1pos].
  set (r1 := round_nearest q0) in *.
  change (1 # 2 ^ 53) with (1 # 9007199254740992) in *.
  destruct (round_nearest_bounds (r1 * 100) 101) as [Hr2 Hr2pos]; [lra|].
  set (r2 := round_nearest (r1 * 100)) in *.
  change (1 # 2 ^ 53) with (1 # 9007199254740992) in *.
  change (inject_Z (10 ^ Z.of_nat 1)) with 10.
  pose proof (round_half_even_error (r2 * 10)) as Hk.
  pose proof (round_half_even_nonneg (r2 * 10) ltac:(lra)) as Hkpos.
  set (k := round_half_even (r2 * 10)) in *.
  apply Qabs_Qle_condition in Hk.
  assert (Hkq : 0 <= inject_Z k).
  { change 0 with (inject_Z 0). by rewrite <- Zle_Qle. }
  destruct (round_nearest_bounds (inject_Z k / 10) 102) as [Hr3 _].
  { unfold Qdiv. change (/ 10) with (1 # 10). lra. }
  set (r3 := round_nearest (inject_Z k / 10)) in *.
  change (1 # 2 ^ 53) with (1 # 9007199254740992) in *.
  unfold Qdiv in Hr3. change (/ 10) with (1 # 10) in Hr3.
  apply Qabs_Qle_condition. lra.
Qed.

Lemma exact_percentage_sum (g y r total : nat) :
  (0 < total)%nat → (g + y + r = total)%nat →
  100 * (Z.of_nat g # Pos.of_nat total)
  + 100 * (Z.of_nat y # Pos.of_nat total)
  + 100 * (Z.of_nat r # Pos.of_nat total) == 100.
Proof.
  intros Htotal Hsum. unfold Qeq, Qplus, Qmult. simpl.
  assert (Hp : Zpos (Pos.of_nat total) = Z.of_nat total).
  { rewrite <- positive_nat_Z, Nat2Pos.id by lia. done. }
  rewrite !Pos2Z.inj_mul, Hp. subst total. nia.
Qed.

Lemma percentage_sum (g y r total : nat) :
  (0 < total)%nat → (g + y + r = total)%nat →
  Qabs (percentage g total + percentage y total + percentage r total - 100)
  <= 3 # 10.
Proof.
  intros Htotal Hsum.
  pose proof (percentage_error g total Htotal ltac:(lia)) as Hg.
  pose proof (percentage_error y total Htotal ltac:(lia)) as Hy.
  pose proof (percentage_error r total Htotal ltac:(lia)) as Hr.
  pose proof (exact_percentage_sum g y r total Htotal Hsum) as Hexact.
  apply Qabs_Qle_condition in Hg, Hy, Hr. apply Qabs_Qle_condition. lra.
Qed.

End float_facts.

(** *** The statistics record *)

Section reporter_facts.
Implicit Types (df : DataFrame) (rows : list (list (string * option string))).

(** Selecting the rows whose flag equals a glyph and counting them. *)
Lemma len_df_mask df flag_column glyph :
  len (df_mask df (series_eq ((λ r, default None (Dict.get r flag_column))
                                <$> records df) glyph))
  = flag_count df flag_column glyph.
Proof.
  unfold len, df_mask, flag_count, series_eq. simpl.
  induction (records df) as [|row rows IH]; [done|].
  csimpl. rewrite !filter_cons. simpl.
  destruct (Dict.get row flag_column) as [[flag|]|]; simpl;
    repeat case_decide; repeat case_bool_decide; simplify_eq/=;
    by rewrite ?IH.
Qed.

Lemma generate_summary_stats_ok df flag_column :
  records df ≠ [] → flag_column ∈ columns df →
  generate_summary_stats df flag_column
  = Ok {| total := len df;
          green := flag_count df flag_column GREEN;
          green_pct := percentage (flag_count df flag_column GREEN) (len df);
          yellow := flag_count df flag_column YELLOW;
          yellow_pct := percentage (flag_count df flag_column YELLOW) (len df);
          red := flag_count df flag_column RED;
          red_pct := percentage (flag_count df flag_column RED) (len df) |}.
Proof.
  intros Hne Hcol. unfold generate_summary_stats, df_getitem.
  rewrite decide_True by done. cbn [rbind].
  rewrite !len_df_mask. unfold truediv.
  assert (Hlen : len df ≠ 0) by (unfold len; by destruct (records df)).
  by destruct (decide (len df = 0)).
Qed.

(** A frame built from rows that all have a flag has the flag column. *)
Lemma pd_DataFrame_flag_column rows flag_column :
  rows ≠ [] → Forall (tier_flag flag_column) rows →
  flag_column ∈ columns (pd_DataFrame rows).
Proof.
  intros Hne Hflags. destruct Hflags as [|row rows Hrow _]; [done|].
  simpl. apply elem_of_first_seen. csimpl. apply elem_of_app. left.
  destruct Hrow as [Hrow|[Hrow|Hrow]]; by eapply Dict_get_Some_keys.
Qed.

Lemma tier_counts_sum df flag_column :
  Forall (tier_flag flag_column) (records df) →
  flag_count df flag_column GREEN + flag_count df flag_column YELLOW
  + flag_count df flag_column RED = len df.
Proof.
  unfold flag_count, len. induction 1 as [|row rows Hrow _ IH]; [done|].
  rewrite !filter_cons. simpl.
  destruct Hrow as [Hrow|[Hrow|Hrow]]; rewrite Hrow;
    repeat case_decide; simplify_eq/=; lia.
Qed.
End reporter_facts.

(** Two green rows and a red one: 66.7, 0.0 and 33.3 percent, as the
    doubles of these decimals. *)
Example generate_summary_stats_three_rows :
  generate_summary_stats
    (pd_DataFrame [[("flag", Some GREEN)]; [("flag", Some RED)];
                   [("flag", Some GREEN)]]) "flag"
  = Ok {| total := 3;
          green := 2; green_pct := double_value (0x1.0accccccccccdp+6)%float;
          yellow := 0; yellow_pct := 0%Q;
          red := 1; red_pct := double_value (0x1.0a66666666666p+5)%float |}.
Proof. vm_compute. reflexivity. Qed.

(** C8. For every frame with at least one row, all flags being tier
    glyphs, [generate_summary_stats] returns a record whose three counts
    add up to the total and whose three percentages, each the count over
    the total times 100 rounded to one decimal, add up to 100 within 0.3. *)
Theorem generate_summary_stats_percentages_sum
    (df : DataFrame) (flag_column : string) :
  records df ≠ [] →
  flag_column ∈ columns df →
  Forall (tier_flag flag_column) (records df) →
  ∃ stats,
    generate_summary_stats df flag_column = Ok stats
    ∧ total stats = len df
    ∧ green stats + yellow stats + red stats = total stats
    ∧ green_pct stats = percentage (green stats) (total stats)
    ∧ yellow_pct stats = percentage (yellow stats) (total stats)
    ∧ red_pct stats = percentage (red stats) (total stats)
    ∧ (Qabs (green_pct stats + yellow_pct stats + red_pct stats - 100)
       <= 3 # 10)%Q.
Proof.
  intros Hne Hcol Hflags. eexists.
  split; [by apply generate_summary_stats_ok|]. simpl.
  pose proof (tier_counts_sum df flag_column Hflags) as Hsum.
  split_and!; try done.
  apply percentage_sum; [|done].
  unfold len. destruct (records df); [done|simpl; lia].
Qed.

Lemma generate_summary_stats_percentages_sum_witness :
  let df := pd_DataFrame [[("flag", Some GREEN)]; [("flag", Some RED)];
                          [("flag", Some GREEN)]] in
  (records df ≠ [] ∧ "flag" ∈ columns df ∧ Forall (tier_flag "flag") (records df))
  ∧ ∃ stats,
      generate_summary_stats df "flag" = Ok stats
      ∧ total stats = len df
      ∧ green stats + yellow stats + red stats = total stats
      ∧ green_pct stats = percentage (green stats) (total stats)
      ∧ yellow_pct stats = percentage (yellow stats) (total stats)
      ∧ red_pct stats = percentage (red stats) (total stats)
      ∧ (Qabs (green_pct stats + yellow_pct stats + red_pct stats - 100)
         <= 3 # 10)%Q.
Proof.
  intros df.
  assert (Hne : records df ≠ []) by discriminate.
  assert (Hflags : Forall (tier_flag "flag") (records df)).
  { unfold tier_flag. simpl.
    apply Forall_cons_2; [by left|]. apply Forall_cons_2; [by right; right|].
    apply Forall_cons_2; [by left|]. constructor. }
  assert (Hcol : "flag" ∈ columns df) by (by apply pd_DataFrame_flag_column).
  split; [done|].
  by apply (generate_summary_stats_percentages_sum df "flag").
Defined.

(** * Preprocessing *)

(** ** Strings as lists of characters *)

Section string_facts.
Implicit Types (s : string) (l : list ascii) (p : ascii → bool).

Lemma chars_inj s1 s2 : chars s1 = chars s2 → s1 = s2.
Proof.
  intros Heq. rewrite <- (String.string_of_list_ascii_of_string s1),
    <- (String.string_of_list_ascii_of_string s2). unfold chars in Heq.
  by rewrite Heq.
Qed.

Lemma chars_length s : length (chars s) = String.length s.
Proof. induction s as [|c s IH]; simpl; [done|]. by rewrite IH. Qed.

Lemma chars_app s1 s2 : chars (s1 +:+ s2) = chars s1 ++ chars s2.
Proof. induction s1 as [|c s1 IH]; simpl; [done|]. by rewrite IH. Qed.

Lemma chars_rev s : chars (String.rev s) = reverse (chars s).
Proof.
  unfold String.rev.
  assert (Hgen : ∀ s1 s2,
    chars (String.rev_app s1 s2) = reverse (chars s1) ++ chars s2).
  { induction s1 as [|c s1 IH]; intros s2; simpl; [done|].
    rewrite IH, reverse_cons, <- app_assoc. done. }
  rewrite Hgen. apply app_nil_r.
Qed.

Lemma chars_lower s : chars (lower s) = lower_char <$> chars s.
Proof. induction s as [|c s IH]; simpl; [done|]. by rewrite IH. Qed.

Lemma chars_lstrip s : chars (lstrip s) = drop_while is_space (chars s).
Proof.
  induction s as [|c s IH]; simpl; [done|]. by destruct (is_space c).
Qed.

Lemma chars_lstrip_chars cs s :
  chars (lstrip_chars cs s) = drop_while (λ c, bool_decide (c ∈ cs)) (chars s).
Proof.
  induction s as [|c s IH]; simpl; [done|]. by destruct (bool_decide (c ∈ cs)).
Qed.

Lemma chars_strip s : chars (strip s) = trim is_space (chars s).
Proof.
  unfold strip, rstrip, trim.
  by rewrite chars_rev, chars_lstrip, chars_rev, chars_lstrip.
Qed.

Lemma chars_strip_chars cs s :
  chars (strip_chars cs s) = trim (λ c, bool_decide (c ∈ chars cs)) (chars s).
Proof.
  unfold strip_chars, trim.
  by rewrite chars_rev, chars_lstrip_chars, chars_rev, chars_lstrip_chars.
Qed.

Lemma chars_sub_whitespace b s :
  chars (sub_whitespace b s) = collapse b (chars s).
Proof.
  revert b. induction s as [|c s IH]; intros b; simpl; [done|].
  destruct (is_space c); [destruct b|]; simpl; by rewrite ?IH.
Qed.

(** [normalize_trait] on the characters. *)
Lemma chars_normalize_trait s :
  chars (normalize_trait s)
  = trim is_punctuation
      (collapse false (trim is_space (lower_char <$> chars s))).
Proof.
  unfold normalize_trait.
  by rewrite chars_strip_chars, chars_sub_whitespace, chars_strip, chars_lower.
Qed.

(** *** Trimming *)

Lemma drop_while_suffix p l : drop_while p l `suffix_of` l.
Proof.
  induction l as [|c l IH]; simpl; [done|].
  destruct (p c); [by apply suffix_cons_r|done].
Qed.

Lemma head_drop_while p l c : head (drop_while p l) = Some c → p c = false.
Proof.
  induction l as [|c' l IH]; simpl; [done|].
  destruct (p c') eqn:Hp; [done|]. simpl. by intros [= <-].
Qed.

Lemma drop_while_id p l :
  (∀ c, head l = Some c → p c = false) → drop_while p l = l.
Proof.
  destruct l as [|c l]; simpl; [done|]. intros Hhead.
  by rewrite (Hhead c eq_refl).
Qed.

(** The trimmed list is a segment of the list. *)
Lemma trim_segment p l : ∃ l1 l2, l = l1 ++ trim p l ++ l2.
Proof.
  unfold trim. destruct (drop_while_suffix p l) as [l1 Hl1].
  destruct (drop_while_suffix p (reverse (drop_while p l))) as [k Hk].
  exists l1, (reverse k). rewrite Hl1 at 1. f_equal.
  rewrite <- reverse_app, <- Hk. by rewrite reverse_involutive.
Qed.


Lemma last_trim p l c : last (trim p l) = Some c → p c = false.
Proof. unfold trim. rewrite last_reverse. apply head_drop_while. Qed.

Lemma head_trim p l c : head (trim p l) = Some c → p c = false.
Proof.
  unfold trim. intros Hhead.
  destruct (drop_while_suffix p (reverse (drop_while p l))) as [k Hk].
  apply (f_equal reverse) in Hk.
  rewrite reverse_involutive, reverse_app in Hk.
  apply (head_drop_while p l). rewrite Hk.
  destruct (reverse (drop_while p (reverse (drop_while p l)))); [done|].
  exact Hhead.
Qed.

Lemma trim_id p l :
  (∀ c, head l = Some c → p c = false) →
  (∀ c, last l = Some c → p c = false) → trim p l = l.
Proof.
  intros Hhead Hlast. unfold trim. rewrite (drop_while_id p l) by done.
  rewrite drop_while_id; [apply reverse_involutive|].
  intros c. rewrite head_reverse. apply Hlast.
Qed.

Lemma trim_idemp p l : trim p (trim p l) = trim p l.
Proof. apply trim_id; [apply head_trim|apply last_trim]. Qed.
End string_facts.

(** ** Characters, whitespace runs *)

Section normalize_facts.
Implicit Types (s w : string) (l : list ascii) (c : ascii).

Lemma lower_char_idemp c : lower_char (lower_char c) = lower_char c.
Proof. destruct c as [[] [] [] [] [] [] [] []]; vm_compute; reflexivity. Qed.

Lemma is_space_lower_char c : is_space (lower_char c) = is_space c.
Proof. destruct c as [[] [] [] [] [] [] [] []]; vm_compute; reflexivity. Qed.


Lemma elem_of_collapse b l c :
  c ∈ collapse b l → c = " "%char ∨ (c ∈ l ∧ is_space c = false).
Proof.
  revert b. induction l as [|c' l IH]; intros b; simpl.
  { by intros ?%elem_of_nil. }
  destruct (is_space c') eqn:Hc'; [destruct b|].
  - intros [?|[? ?]]%IH; [by left|right; split; [by right|done]].
  - intros [->|[?|[? ?]]%IH]%elem_of_cons;
      [by left|by left|right; split; [by right|done]].
  - intros [->|[?|[? ?]]%IH]%elem_of_cons;
      [right; split; [left|done]|by left|right; split; [by right|done]].
Qed.

Lemma head_collapse_true l c :
  head (collapse true l) = Some c → is_space c = false.
Proof.
  induction l as [|c' l IH]; simpl; [done|].
  destruct (is_space c') eqn:Hc'; [done|]. simpl. by intros [= <-].
Qed.

(** After [collapse] no two whitespace characters are adjacent. *)
Lemma collapse_no_adjacent b l l1 c1 c2 l2 :
  collapse b l = l1 ++ c1 :: c2 :: l2 →
  ¬ (is_space c1 = true ∧ is_space c2 = true).
Proof.
  revert b l1. induction l as [|c l IH]; intros b l1; simpl.
  { by destruct l1. }
  destruct (is_space c) eqn:Hc; [destruct b|].
  - apply IH.
  - destruct l1 as [|c0 l1]; simpl; [|intros [= _ Heq]; by eapply IH].
    intros [= <- Heq] [_ H2].
    assert (is_space c2 = false); [|congruence].
    apply (head_collapse_true l). by rewrite Heq.
  - destruct l1 as [|c0 l1]; simpl; [|intros [= _ Heq]; by eapply IH].
    intros [= <- Heq] [H1 _]. congruence.
Qed.

(** A run of characters without whitespace passes through [collapse]. *)
Lemma collapse_plain b l rest :
  l ≠ [] → Forall (λ c, is_space c = false) l →
  collapse b (l ++ rest) = l ++ collapse false rest.
Proof.
  intros Hne Hl. revert b. induction Hl as [|c l Hc Hl IH]; intros b; [done|].
  simpl. rewrite Hc. f_equal.
  destruct l as [|c' l]; [done|]. by apply IH.
Qed.

Lemma collapse_plain_all b l :
  Forall (λ c, is_space c = false) l → collapse b l = l.
Proof.
  intros Hl. destruct l as [|c l]; [done|].
  rewrite <- (app_nil_r (c :: l)) at 1.
  rewrite collapse_plain by done. apply app_nil_r.
Qed.

(** Every character of a normalized trait is a lower-case image or a
    blank. *)
Lemma elem_of_chars_normalize_trait s c :
  c ∈ chars (normalize_trait s) →
  (is_space c = true → c = " "%char) ∧ lower_char c = c.
Proof.
  rewrite chars_normalize_trait.
  set (m := collapse false (trim is_space (lower_char <$> chars s))).
  destruct (trim_segment is_punctuation m) as (l1 & l2 & Hm).
  intros Hc. assert (Hcm : c ∈ m).
  { rewrite Hm, !elem_of_app. auto. }
  apply elem_of_collapse in Hcm as [->|[Hcm Hsp]]; [done|].
  split; [congruence|].
  destruct (trim_segment is_space (lower_char <$> chars s)) as (k1 & k2 & Hk).
  assert (Hcs : c ∈ lower_char <$> chars s).
  { rewrite Hk, !elem_of_app. auto. }
  apply list_elem_of_fmap in Hcs as (c' & -> & _). apply lower_char_idemp.
Qed.
End normalize_facts.

(** X1. A normalized trait neither starts nor ends with one of the
    characters . , ; : ; its only whitespace characters are single blanks,
    no two of them adjacent; and it has no capital letter left. *)
Theorem normalize_trait_shape (trait : string) :
  (∀ c, head (chars (normalize_trait trait)) = Some c → is_punctuation c = false)
  ∧ (∀ c, last (chars (normalize_trait trait)) = Some c →
          is_punctuation c = false)
  ∧ (∀ c, c ∈ chars (normalize_trait trait) → is_space c = true → c = " "%char)
  ∧ (∀ l1 c1 c2 l2,
       chars (normalize_trait trait) = l1 ++ c1 :: c2 :: l2 →
       ¬ (is_space c1 = true ∧ is_space c2 = true))
  ∧ lower (normalize_trait trait) = normalize_trait trait.
Proof.
  split_and!.
  - intros c. rewrite chars_normalize_trait. apply head_trim.
  - intros c. rewrite chars_normalize_trait. apply last_trim.
  - intros c Hc. by apply elem_of_chars_normalize_trait in Hc as [? _].
  - intros l1 c1 c2 l2. rewrite chars_normalize_trait.
    set (m := collapse false (trim is_space (lower_char <$> chars trait))).
    destruct (trim_segment is_punctuation m) as (k1 & k2 & Hm).
    intros Heq. rewrite Heq in Hm.
    apply (collapse_no_adjacent false
             (trim is_space (lower_char <$> chars trait)) (k1 ++ l1) c1 c2 (l2 ++ k2)).
    fold m. rewrite Hm. by rewrite <- !app_assoc.
  - apply chars_inj. rewrite chars_lower.
    rewrite <- (list_fmap_id (chars (normalize_trait trait))) at 2.
    apply list_fmap_ext. intros i c Hc. simpl.
    by apply list_elem_of_lookup_2, elem_of_chars_normalize_trait in Hc as [_ ?].
Qed.


(** X3. [normalize_trait] is not idempotent: for a word [w] of lower-case
    characters that are neither whitespace nor punctuation, the trait [w]
    followed by a blank and a full stop is normalized to [w] with a
    trailing blank, which a second pass would turn into [w]. *)
Theorem normalize_trait_not_idempotent (w : string) :
  w ≠ "" →
  Forall (λ c, is_space c = false ∧ is_punctuation c = false ∧ lower_char c = c)
         (chars w) →
  normalize_trait (w +:+ " .") = w +:+ " "
  ∧ normalize_trait (w +:+ " ") = w
  ∧ normalize_trait (normalize_trait (w +:+ " ."))
    ≠ normalize_trait (w +:+ " .").
Proof.
  intros Hne Hw.
  assert (HW : chars w ≠ []) by (destruct w; done).
  assert (Hsp : Forall (λ c, is_space c = false) (chars w))
    by (eapply Forall_impl; [exact Hw|]; by intros c (? & _)).
  assert (Hpu : Forall (λ c, is_punctuation c = false) (chars w))
    by (eapply Forall_impl; [exact Hw|]; by intros c (_ & ? & _)).
  assert (Hlow : lower_char <$> chars w = chars w).
  { rewrite <- (list_fmap_id (chars w)) at 2. apply Forall_fmap_ext_1.
    eapply Forall_impl; [exact Hw|]. by intros c (_ & _ & ?). }
  assert (Hhead : ∀ (p : ascii → bool) rest c,
    Forall (λ c, p c = false) (chars w) →
    head (chars w ++ rest) = Some c → p c = false).
  { intros p rest c Hp. destruct (chars w) as [|c' W]; [done|].
    simpl. intros [= <-]. by apply Forall_cons in Hp as [? _]. }
  assert (Hlast : ∀ (p : ascii → bool) c,
    Forall (λ c, p c = false) (chars w) →
    last (chars w) = Some c → p c = false).
  { intros p c Hp Hc. apply last_Some_elem_of in Hc.
    by apply (proj1 (Forall_forall _ _) Hp). }
  assert (H1 : normalize_trait (w +:+ " .") = w +:+ " ").
  { apply chars_inj. rewrite chars_normalize_trait, !chars_app, fmap_app, Hlow.
    change (lower_char <$> chars " .") with [" "%char; "."%char].
    rewrite (trim_id is_space).
    - rewrite collapse_plain by done.
      change (collapse false [" "%char; "."%char]) with [" "%char; "."%char].
      unfold trim.
      rewrite (drop_while_id is_punctuation (chars w ++ [" "%char; "."%char]))
        by (intros c; by apply (Hhead is_punctuation)).
      rewrite reverse_app. change (reverse [" "%char; "."%char])
        with ["."%char; " "%char].
      change (drop_while is_punctuation (["."%char; " "%char] ++ reverse (chars w)))
        with (" "%char :: reverse (chars w)).
      by rewrite reverse_cons, reverse_involutive.
    - intros c. by apply (Hhead is_space).
    - intros c. rewrite last_app. simpl. by intros [= <-]. }
  assert (H2 : normalize_trait (w +:+ " ") = w).
  { apply chars_inj. rewrite chars_normalize_trait, !chars_app, fmap_app, Hlow.
    change (lower_char <$> chars " ") with [" "%char].
    assert (Htrim : trim is_space (chars w ++ [" "%char]) = chars w).
    { unfold trim.
      rewrite (drop_while_id is_space (chars w ++ [" "%char]))
        by (intros c; by apply (Hhead is_space)).
      rewrite reverse_snoc.
      change (drop_while is_space (" "%char :: reverse (chars w)))
        with (drop_while is_space (reverse (chars w))).
      rewrite drop_while_id; [apply reverse_involutive|].
      intros c. rewrite head_reverse. by apply (Hlast is_space). }
    rewrite Htrim, collapse_plain_all by done.
    apply trim_id; [|intros c; by apply (Hlast is_punctuation)].
    intros c Hc. apply (Hhead is_punctuation [] c Hpu). by rewrite app_nil_r. }
  split_and!; [done|done|].
  rewrite H1, H2. intros Heq. apply (f_equal String.length) in Heq.
  rewrite <- !chars_length, chars_app, length_app in Heq. simpl in Heq. lia.
Qed.

Lemma normalize_trait_not_idempotent_witness :
  ("age" ≠ ""
   ∧ Forall (λ c, is_space c = false ∧ is_punctuation c = false
                  ∧ lower_char c = c) (chars "age"))
  ∧ normalize_trait ("age" +:+ " .") = "age" +:+ " "
  ∧ normalize_trait ("age" +:+ " ") = "age"
  ∧ normalize_trait (normalize_trait ("age" +:+ " ."))
    ≠ normalize_trait ("age" +:+ " .").
Proof.
  assert (Hw : Forall (λ c, is_space c = false ∧ is_punctuation c = false
                            ∧ lower_char c = c) (chars "age"))
    by (repeat constructor).
  split; [split; [discriminate|exact Hw]|].
  apply (normalize_trait_not_idempotent "age"); [discriminate|exact Hw].
Defined.

(** ** Deduplication *)

Section deduplicate_facts.
Implicit Types (traits : list string) (s t : string).

Lemma first_seen_length (l : list string) : length (first_seen l) ≤ length l.
Proof.
  induction l as [|x l IH]; simpl; [done|].
  pose proof (length_filter (λ y, y ≠ x) (first_seen l)). lia.
Qed.

(** The loop keeps the non-empty normalized traits in order of first
    appearance, and [seen] is the set of those kept. *)
Lemma deduplicate_loop_spec traits :
  deduplicate_loop traits
  = (list_to_set (kept_traits traits), kept_traits traits).
Proof.
  unfold deduplicate_loop, kept_traits.
  induction traits as [|t traits IH] using rev_ind; [done|].
  rewrite foldl_snoc, IH, fmap_app, filter_app. csimpl.
  set (l := filter (λ s, s ≠ "") (normalize_trait <$> traits)).
  set (n := normalize_trait t).
  rewrite filter_cons, filter_nil.
  destruct (decide (n ≠ "")) as [Hn|Hn].
  - rewrite (bool_decide_eq_true_2 _ Hn), first_seen_snoc. simpl.
    destruct (decide (n ∈ l)) as [Hin|Hnin].
    + rewrite bool_decide_eq_false_2, app_nil_r; [done|].
      intros Hnot. apply Hnot. by apply elem_of_list_to_set, elem_of_first_seen.
    + rewrite bool_decide_eq_true_2.
      * f_equal. rewrite list_to_set_app_L. simpl.
        rewrite (right_id_L ∅ (∪)). apply (comm_L (∪)).
      * intros Hin%elem_of_list_to_set. by apply Hnin, elem_of_first_seen.
  - rewrite (bool_decide_eq_false_2 _ Hn). simpl. by rewrite app_nil_r.
Qed.

Lemma deduplicate_traits_Permutation traits :
  deduplicate_traits traits ≡ₚ kept_traits traits.
Proof.
  unfold deduplicate_traits, sorted. rewrite deduplicate_loop_spec. simpl.
  apply merge_sort_Permutation.
Qed.

Lemma elem_of_kept_traits traits s :
  s ∈ kept_traits traits ↔ s ≠ "" ∧ ∃ t, t ∈ traits ∧ normalize_trait t = s.
Proof.
  unfold kept_traits.
  rewrite elem_of_first_seen, list_elem_of_filter, list_elem_of_fmap.
  split; intros [? (t & ? & ?)]; (split; [done|]); exists t; done.
Qed.

Lemma kept_traits_length traits : length (kept_traits traits) ≤ length traits.
Proof.
  unfold kept_traits. etrans; [apply first_seen_length|].
  etrans; [apply length_filter|]. by rewrite length_fmap.
Qed.
End deduplicate_facts.

(** X4. [deduplicate_traits] returns the ascending, duplicate-free list of
    the non-empty normalized forms of its input: a string is in the result
    exactly when it is not empty and is the normalized form of some input
    trait; the result is never longer than the input. *)
Theorem deduplicate_traits_spec (traits : list string) :
  StronglySorted String.le (deduplicate_traits traits)
  ∧ NoDup (deduplicate_traits traits)
  ∧ (∀ s, s ∈ deduplicate_traits traits
          ↔ s ≠ "" ∧ ∃ t, t ∈ traits ∧ normalize_trait t = s)
  ∧ length (deduplicate_traits traits) ≤ length traits.
Proof.
  split_and!.
  - apply (StronglySorted_merge_sort _).
  - rewrite deduplicate_traits_Permutation. apply NoDup_first_seen.
  - intros s. rewrite deduplicate_traits_Permutation.
    apply elem_of_kept_traits.
  - rewrite deduplicate_traits_Permutation. apply kept_traits_length.
Qed.

(** X5. The result of [deduplicate_traits] does not depend on the order of
    the input traits. *)
Theorem deduplicate_traits_order_independent (traits1 traits2 : list string) :
  traits1 ≡ₚ traits2 → deduplicate_traits traits1 = deduplicate_traits traits2.
Proof.
  intros Hperm.
  destruct (deduplicate_traits_spec traits1) as (Hs1 & Hn1 & Hin1 & _).
  destruct (deduplicate_traits_spec traits2) as (Hs2 & Hn2 & Hin2 & _).
  apply sorted_NoDup_ext; [done..|].
  intros s. rewrite Hin1, Hin2.
  split; intros [? (t & Ht & ?)]; (split; [done|]); exists t;
    (split; [|done]); [by rewrite <- Hperm|by rewrite Hperm].
Qed.

Lemma deduplicate_traits_order_independent_witness :
  ["Age."; "b ."; "age"; "B"] ≡ₚ ["b ."; "Age."; "age"; "B"]
  ∧ deduplicate_traits ["Age."; "b ."; "age"; "B"]
    = deduplicate_traits ["b ."; "Age."; "age"; "B"].
Proof.
  split; [apply perm_swap|].
  apply deduplicate_traits_order_independent, perm_swap.
Defined.

(** ** The preprocessing pipeline *)




(** * More on the consensus resolver *)

Section consensus_more.
Implicit Types (votes : list string) (l w v : string).

Lemma occurrences_cons l x votes :
  occurrences l (x :: votes)
  = (if decide (x = l) then 1 else 0) + occurrences l votes.
Proof. unfold occurrences. rewrite filter_cons. by case_decide. Qed.

Lemma occurrences_le_length l votes : occurrences l votes ≤ length votes.
Proof. apply length_filter. Qed.

Lemma occurrences_two_labels l w votes :
  l ≠ w → occurrences l votes + occurrences w votes ≤ length votes.
Proof.
  intros Hne. induction votes as [|x votes IH]; [done|].
  rewrite !occurrences_cons. simpl.
  repeat case_decide; simplify_eq; lia.
Qed.

Lemma occurrences_all_equal v votes :
  Forall (λ x, x = v) votes → occurrences v votes = length votes.
Proof.
  induction 1 as [|x votes -> _ IH]; [done|].
  rewrite occurrences_cons, decide_True by done. simpl. by rewrite IH.
Qed.

Lemma plurality_count_Permutation votes1 votes2 :
  votes1 ≡ₚ votes2 → plurality_count votes1 = plurality_count votes2.
Proof.
  intros Hperm. unfold plurality_count.
  rewrite (list_fmap_ext (λ l, occurrences l votes1)
             (λ l, occurrences l votes2) votes1)
    by (intros i l _; by apply occurrences_Permutation).
  by rewrite Hperm.
Qed.

(** The verdict in terms of the plurality count. *)
Lemma calculate_consensus_plurality votes :
  votes ≠ [] →
  ∃ w, calculate_consensus votes
       = Ok (w, pretty (plurality_count votes) +:+ "/" +:+ pretty (length votes),
             confidence_tier (plurality_count votes))
     ∧ w ∈ votes
     ∧ occurrences w votes = plurality_count votes
     ∧ (∀ l, occurrences l votes ≤ occurrences w votes).
Proof.
  intros Hne.
  destruct (calculate_consensus_spec votes Hne) as (w & Heq & Hw & Hmax & _).
  exists w. rewrite (plurality_count_max w) by done. done.
Qed.

Lemma plurality_count_bounds votes :
  votes ≠ [] → 1 ≤ plurality_count votes ≤ length votes.
Proof.
  intros Hne.
  destruct (calculate_consensus_plurality votes Hne) as (w & _ & Hw & <- & _).
  split; [by apply occurrences_pos|apply occurrences_le_length].
Qed.
End consensus_more.

(** X8. A label that holds more than half of the votes is the consensus,
    wherever it stands in the list. *)
Theorem calculate_consensus_majority (votes : list string) (l : string) :
  length votes < 2 * occurrences l votes →
  ∃ ratio flag, calculate_consensus votes = Ok (l, ratio, flag).
Proof.
  intros Hmaj.
  assert (Hne : votes ≠ []) by (intros ->; simpl in Hmaj; lia).
  destruct (calculate_consensus_spec votes Hne) as (w & Heq & Hw & Hmax & _).
  destruct (decide (l = w)) as [->|Hlw]; [eauto|].
  pose proof (occurrences_two_labels l w votes Hlw).
  pose proof (Hmax l). lia.
Qed.

Lemma calculate_consensus_majority_witness :
  length ["B"; "A"; "A"; "C"; "A"] < 2 * occurrences "A" ["B"; "A"; "A"; "C"; "A"]
  ∧ ∃ ratio flag,
      calculate_consensus ["B"; "A"; "A"; "C"; "A"] = Ok ("A", ratio, flag).
Proof.
  assert (H : length ["B"; "A"; "A"; "C"; "A"]
              < 2 * occurrences "A" ["B"; "A"; "A"; "C"; "A"])
    by (vm_compute; lia).
  split; [exact H|].
  exact (calculate_consensus_majority ["B"; "A"; "A"; "C"; "A"] "A" H).
Defined.

(** X9. Reordering the votes changes neither the agreement ratio nor the
    flag, and it changes the consensus label only when two labels tie for
    the largest count. *)
Theorem calculate_consensus_order (votes1 votes2 : list string) :
  votes1 ≠ [] → votes1 ≡ₚ votes2 →
  ∃ w1 w2 ratio flag,
    calculate_consensus votes1 = Ok (w1, ratio, flag)
    ∧ calculate_consensus votes2 = Ok (w2, ratio, flag)
    ∧ occurrences w1 votes1 = occurrences w2 votes2
    ∧ ((∀ l, l ≠ w1 → occurrences l votes1 < occurrences w1 votes1) → w2 = w1).
Proof.
  intros Hne Hperm.
  assert (Hne2 : votes2 ≠ []).
  { intros ->. by apply Permutation_nil_r in Hperm. }
  destruct (calculate_consensus_plurality votes1 Hne)
    as (w1 & Heq1 & Hw1 & Hocc1 & Hmax1).
  destruct (calculate_consensus_plurality votes2 Hne2)
    as (w2 & Heq2 & Hw2 & Hocc2 & Hmax2).
  pose proof (plurality_count_Permutation _ _ Hperm) as Hpc.
  exists w1, w2. do 2 eexists. split; [exact Heq1|].
  rewrite Heq2, <- Hpc, <- (Permutation_length Hperm).
  split_and!; [done|congruence|].
  intros Huniq. destruct (decide (w2 = w1)) as [|Hne12]; [done|].
  specialize (Huniq w2 Hne12).
  rewrite (occurrences_Permutation w2 _ _ Hperm) in Huniq. lia.
Qed.

Lemma calculate_consensus_order_witness :
  (["B"; "A"; "A"] ≠ [] ∧ ["B"; "A"; "A"] ≡ₚ ["A"; "B"; "A"])
  ∧ ∃ w1 w2 ratio flag,
      calculate_consensus ["B"; "A"; "A"] = Ok (w1, ratio, flag)
      ∧ calculate_consensus ["A"; "B"; "A"] = Ok (w2, ratio, flag)
      ∧ occurrences w1 ["B"; "A"; "A"] = occurrences w2 ["A"; "B"; "A"]
      ∧ ((∀ l, l ≠ w1 →
               occurrences l ["B"; "A"; "A"] < occurrences w1 ["B"; "A"; "A"]) →
         w2 = w1).
Proof.
  split; [split; [discriminate|apply perm_swap]|].
  apply calculate_consensus_order; [discriminate|apply perm_swap].
Defined.

(** X10. The agreement count lies between 1 and the number of votes, so
    fewer than four votes never give the green flag and fewer than three
    always give the red one. *)
Theorem calculate_consensus_few_votes (votes : list string) :
  votes ≠ [] →
  ∃ w ratio flag,
    calculate_consensus votes = Ok (w, ratio, flag)
    ∧ 1 ≤ plurality_count votes ≤ length votes
    ∧ (length votes < 4 → flag ≠ GREEN)
    ∧ (length votes < 3 → flag = RED).
Proof.
  intros Hne.
  destruct (calculate_consensus_plurality votes Hne) as (w & Heq & _).
  pose proof (plurality_count_bounds votes Hne) as Hb.
  exists w. do 2 eexists. split; [exact Heq|]. split; [done|].
  unfold confidence_tier.
  split; intros Hlen; repeat case_decide; try lia; done.
Qed.

Lemma calculate_consensus_few_votes_witness :
  ["A"; "A"; "A"] ≠ []
  ∧ ∃ w ratio flag,
      calculate_consensus ["A"; "A"; "A"] = Ok (w, ratio, flag)
      ∧ 1 ≤ plurality_count ["A"; "A"; "A"] ≤ length ["A"; "A"; "A"]
      ∧ (length ["A"; "A"; "A"] < 4 → flag ≠ GREEN)
      ∧ (length ["A"; "A"; "A"] < 3 → flag = RED).
Proof.
  split; [discriminate|].
  apply calculate_consensus_few_votes. discriminate.
Defined.

(** X11. When all the votes are for one label, that label is the consensus
    and the ratio is the number of votes over itself. *)
Theorem calculate_consensus_unanimous (votes : list string) (v : string) :
  votes ≠ [] → Forall (λ x, x = v) votes →
  calculate_consensus votes
  = Ok (v, pretty (length votes) +:+ "/" +:+ pretty (length votes),
        confidence_tier (length votes)).
Proof.
  intros Hne Hall.
  destruct (calculate_consensus_plurality votes Hne) as (w & Heq & Hw & Hocc & _).
  assert (w = v) as -> by (by apply (proj1 (Forall_forall _ _) Hall)).
  rewrite Heq, <- Hocc. by rewrite (occurrences_all_equal v votes).
Qed.

Lemma calculate_consensus_unanimous_witness :
  (["U"; "U"; "U"; "U"] ≠ [] ∧ Forall (λ x, x = "U") ["U"; "U"; "U"; "U"])
  ∧ calculate_consensus ["U"; "U"; "U"; "U"]
    = Ok ("U", pretty (length ["U"; "U"; "U"; "U"]) +:+ "/"
               +:+ pretty (length ["U"; "U"; "U"; "U"]),
          confidence_tier (length ["U"; "U"; "U"; "U"])).
Proof.
  assert (Hall : Forall (λ x, x = "U") ["U"; "U"; "U"; "U"])
    by (repeat constructor).
  split; [split; [discriminate|exact Hall]|].
  apply calculate_consensus_unanimous; [discriminate|exact Hall].
Defined.

(** * More on the phase aggregators *)

Section aggregator_more.
Implicit Types (mr : list (string * list (string * string))).
Implicit Types (item : string) (rows : list (list (string * option string))).

Lemma filter_all_true (P : string → Prop) `{∀ x, Decision (P x)}
    (l : list string) :
  (∀ x, x ∈ l → P x) → filter P l = l.
Proof.
  induction l as [|x l IH]; intros Hall; [done|].
  rewrite filter_cons, decide_True by (apply Hall; left).
  f_equal. apply IH. intros y ?. apply Hall. by right.
Qed.

Lemma first_seen_NoDup_id (l : list string) : NoDup l → first_seen l = l.
Proof.
  induction 1 as [|x l Hx _ IH]; simpl; [done|].
  rewrite IH, filter_all_true; [done|]. by intros y ? ->.
Qed.

Lemma first_seen_app_subset (l k : list string) :
  (∀ x, x ∈ k → x ∈ l) → first_seen (l ++ k) = first_seen l.
Proof.
  induction k as [|x k IH] using rev_ind; intros Hsub.
  { by rewrite app_nil_r. }
  rewrite app_assoc, first_seen_snoc, IH.
  - rewrite decide_True, app_nil_r; [done|].
    apply elem_of_app. left. apply Hsub, elem_of_app. right. left.
  - intros y ?. apply Hsub, elem_of_app. by left.
Qed.

Lemma elem_of_concat (x : string) (ls : list (list string)) :
  x ∈ concat ls → ∃ l, l ∈ ls ∧ x ∈ l.
Proof.
  induction ls as [|l ls IH]; simpl; [by intros ?%elem_of_nil|].
  intros [?|(l' & ? & ?)%IH]%elem_of_app.
  - exists l. split; [left|done].
  - exists l'. split; [by right|done].
Qed.

(** The columns of a frame built from rows that all have the same
    distinct keys. *)
Lemma pd_DataFrame_columns rows (cols : list string) :
  NoDup cols → Forall (λ row, Dict.keys row = cols) rows →
  columns (pd_DataFrame rows) = match rows with [] => [] | _ :: _ => cols end.
Proof.
  intros Hnd Hrows. simpl. destruct Hrows as [|row rows Hrow Hrows]; [done|].
  csimpl. rewrite Hrow, first_seen_app_subset; [by apply first_seen_NoDup_id|].
  intros x (ks & Hks & Hx)%elem_of_concat.
  apply list_elem_of_fmap in Hks as (row' & -> & Hrow').
  by rewrite (proj1 (Forall_forall _ _) Hrows row' Hrow') in Hx.
Qed.

Lemma calculate_consensus_flag_glyph votes w a f :
  calculate_consensus votes = Ok (w, a, f) →
  votes ≠ []
  ∧ a = pretty (plurality_count votes) +:+ "/" +:+ pretty (length votes)
  ∧ (f = GREEN ∨ f = YELLOW ∨ f = RED).
Proof.
  intros Heq. assert (Hne : votes ≠ []) by (intros ->; discriminate Heq).
  destruct (calculate_consensus_plurality votes Hne) as (w' & Heq' & _).
  rewrite Heq' in Heq. injection Heq as -> <- <-.
  split_and!; [done|done|]. unfold confidence_tier.
  repeat case_decide; auto.
Qed.

Lemma present_votes_length mr item : length (present_votes mr item) ≤ 5.
Proof.
  unfold present_votes. change 5 with (length MODELS).
  induction MODELS as [|m ms IH]; csimpl; [done|].
  destruct (panel_vote mr m item); simpl; lia.
Qed.

(** A lookup in a dictionary does not depend on the order of its
    entries. *)
Lemma Dict_get_Some_elem_of {V} (d : list (string * V)) k v :
  NoDup (Dict.keys d) → Dict.get d k = Some v ↔ (k, v) ∈ d.
Proof.
  unfold Dict.keys. induction d as [|[k' v'] d IH]; csimpl.
  { intros _. split; [done|by intros ?%elem_of_nil]. }
  intros [Hk' Hnd]%NoDup_cons. rewrite elem_of_cons. case_decide as Hkk.
  - subst k'. split; [intros [= ->]; by left|].
    intros [[= ->]|Hin]; [done|].
    exfalso. apply Hk'. apply list_elem_of_fmap. by exists (k, v).
  - rewrite IH by done. split; [by right|].
    intros [[= -> ->]|?]; done.
Qed.

Lemma Dict_get_Permutation {V} (d d' : list (string * V)) k :
  NoDup (Dict.keys d) → d ≡ₚ d' → Dict.get d k = Dict.get d' k.
Proof.
  intros Hnd Hperm. apply option_eq. intros v.
  rewrite !Dict_get_Some_elem_of; [by rewrite Hperm|..|done].
  unfold Dict.keys in *. by rewrite <- Hperm.
Qed.

Lemma all_items_Permutation mr mr' : mr ≡ₚ mr' → all_items mr = all_items mr'.
Proof.
  intros Hperm. apply set_eq. intros i. rewrite !elem_of_all_items.
  unfold observed. by setoid_rewrite Hperm.
Qed.

Lemma panel_votes_ext mr mr' item :
  (∀ m, m ∈ MODELS → Dict.get mr m = Dict.get mr' m) →
  panel_votes mr item = panel_votes mr' item.
Proof.
  intros Hagree. rewrite !panel_votes_spec.
  rewrite (present_votes_panel mr mr') by done. f_equal.
  apply list_fmap_ext. intros i m Hm%list_elem_of_lookup_2.
  unfold panel_vote. by rewrite Hagree.
Qed.

Lemma aggregate_rows_ext item_col label_col mr mr' items rows :
  (∀ item, panel_votes mr item = panel_votes mr' item) →
  aggregate_rows item_col label_col mr items rows
  = aggregate_rows item_col label_col mr' items rows.
Proof.
  intros Hext. revert rows.
  induction items as [|item items IH]; intros rows; [done|].
  cbn [aggregate_rows]. rewrite Hext.
  destruct (panel_votes mr' item) as [[|v votes] model_votes]; [apply IH|].
  destruct (calculate_consensus (v :: votes)) as [[[c a] f]|e]; [|done].
  cbn [rbind]. apply IH.
Qed.

Section rows_more.
Context (item_col label_col : string).
Hypothesis columns_distinct :
  NoDup ([item_col; label_col; "agreement"; "flag"] ++ MODELS).

Lemma verdict_row_keys mr item row :
  verdict_row item_col label_col mr item row →
  Dict.keys row = [item_col; label_col; "agreement"; "flag"] ++ MODELS.
Proof.
  intros (w & a & f & _ & ->). unfold Dict.keys.
  rewrite fmap_app, <- list_fmap_compose. csimpl. done.
Qed.

(** The frame of an aggregator: its rows have the four verdict columns
    and the five panel columns, and so has the frame unless it is empty. *)
Lemma aggregate_results_columns mr :
  ∃ df, aggregate_results item_col label_col mr = Ok df
        ∧ Forall (λ row, Dict.keys row
                         = [item_col; label_col; "agreement"; "flag"] ++ MODELS)
                 (records df)
        ∧ columns df
          = match records df with
            | [] => []
            | _ :: _ => [item_col; label_col; "agreement"; "flag"] ++ MODELS
            end.
Proof.
  destruct (aggregate_results_spec _ _ columns_distinct mr)
    as (rows & -> & Hrows).
  eexists; split; [done|].
  assert (Hkeys : Forall (λ row, Dict.keys row
                     = [item_col; label_col; "agreement"; "flag"] ++ MODELS) rows).
  { eapply Forall2_Forall_r; [exact Hrows|].
    apply Forall_forall. intros i _ row. apply verdict_row_keys. }
  split; [done|]. by apply pd_DataFrame_columns.
Qed.

(** The flag and the ratio of every row. *)
Lemma aggregate_results_flags mr :
  ∃ df, aggregate_results item_col label_col mr = Ok df
        ∧ Forall (tier_flag "flag") (records df)
        ∧ Forall (λ row, ∃ i,
                    Dict.get row item_col = Some (Some i)
                    ∧ Dict.get row "agreement"
                      = Some (Some (pretty (plurality_count (present_votes mr i))
                                    +:+ "/"
                                    +:+ pretty (length (present_votes mr i))))
                    ∧ 1 ≤ plurality_count (present_votes mr i)
                      ≤ length (present_votes mr i)
                    ∧ length (present_votes mr i) ≤ 5)
                 (records df)
        ∧ (records df = [] ↔ ∀ i, observed mr i → present_votes mr i = []).
Proof.
  destruct (aggregate_results_spec _ _ columns_distinct mr)
    as (rows & -> & Hrows).
  eexists; split; [done|]. simpl. split_and!.
  - eapply Forall2_Forall_r; [exact Hrows|].
    apply Forall_forall. intros i _ row Hrow.
    destruct (verdict_row_cells _ _ columns_distinct _ _ _ Hrow)
      as (w & a & f & Hcc & _ & _ & _ & Hflag & _).
    apply calculate_consensus_flag_glyph in Hcc as (_ & _ & Hf).
    unfold tier_flag. rewrite Hflag.
    destruct Hf as [-> | [-> | ->]]; auto.
  - eapply Forall2_Forall_r; [exact Hrows|].
    apply Forall_forall. intros i _ row Hrow.
    destruct (verdict_row_cells _ _ columns_distinct _ _ _ Hrow)
      as (w & a & f & Hcc & Hitem & _ & Hagr & _).
    apply calculate_consensus_flag_glyph in Hcc as (Hne & -> & _).
    exists i. split_and!; [done|done|..].
    + by apply plurality_count_bounds.
    + by apply plurality_count_bounds.
    + apply present_votes_length.
  - split.
    + intros ->. apply Forall2_nil_inv_r in Hrows.
      intros i Hobs. destruct (decide (present_votes mr i = [])) as [|Hne]; [done|].
      assert (Hin : i ∈ filter (λ i, present_votes mr i ≠ [])
                               (sorted (elements (all_items mr))))
        by (by apply elem_of_voted_items).
      rewrite Hrows in Hin. by apply elem_of_nil in Hin.
    + intros Hnone.
      assert (Hnil : filter (λ i, present_votes mr i ≠ [])
                            (sorted (elements (all_items mr))) = []).
      { apply elem_of_nil_inv. intros i [Hobs Hne]%elem_of_voted_items.
        by apply Hne, Hnone. }
      rewrite Hnil in Hrows. by apply Forall2_nil_inv_l in Hrows.
Qed.

(** The summary of the frame of an aggregator. *)
Lemma aggregate_results_summary mr :
  ∃ df, aggregate_results item_col label_col mr = Ok df
        ∧ (records df = [] ↔ ∀ i, observed mr i → present_votes mr i = [])
        ∧ (records df = [] →
           generate_summary_stats df "flag" = Raise (KeyError "flag"))
        ∧ (records df ≠ [] →
           ∃ stats, generate_summary_stats df "flag" = Ok stats
                    ∧ total stats = len df
                    ∧ green stats + yellow stats + red stats = total stats
                    ∧ (Qabs (green_pct stats + yellow_pct stats
                             + red_pct stats - 100) <= 3 # 10)%Q).
Proof.
  destruct (aggregate_results_columns mr) as (df & Heq & Hkeys & Hcols).
  destruct (aggregate_results_flags mr) as (df' & Heq' & Hflags & _ & Hempty).
  rewrite Heq in Heq'. injection Heq' as <-.
  exists df. split_and!; [done|done|..].
  - intros Hnil. rewrite Hnil in Hcols.
    unfold generate_summary_stats, df_getitem. rewrite Hcols.
    rewrite decide_False by apply not_elem_of_nil. done.
  - intros Hne.
    assert (Hcol : "flag" ∈ columns df).
    { rewrite Hcols. destruct (records df); [done|].
      apply elem_of_app. left. by do 3 right; left. }
    assert (Hlen : 0 < len df)
      by (unfold len; destruct (records df); [done|simpl; lia]).
    pose proof (tier_counts_sum df "flag" Hflags) as Hsum.
    eexists. split; [by apply generate_summary_stats_ok|].
    cbn [total green yellow red green_pct yellow_pct red_pct].
    split_and!; [reflexivity|exact Hsum|].
    exact (percentage_sum _ _ _ _ Hlen Hsum).
Qed.
End rows_more.
End aggregator_more.

(** X12. Every row of the frame of an aggregator has, in this order, the
    item column, the label column, [agreement], [flag] and one column per
    panel source; the frame has these nine columns when it has a row and
    no column at all when it has none. *)
Theorem aggregate_phase_results_columns
    (model_results : list (string * list (string * string))) :
  ∃ df2 df3,
    aggregate_phase2_results model_results = Ok df2
    ∧ aggregate_phase3_results model_results = Ok df3
    ∧ Forall (λ row, Dict.keys row
                     = ["trait"; "umbrella"; "agreement"; "flag"] ++ MODELS)
             (records df2)
    ∧ columns df2
      = match records df2 with
        | [] => []
        | _ :: _ => ["trait"; "umbrella"; "agreement"; "flag"] ++ MODELS
        end
    ∧ Forall (λ row, Dict.keys row
                     = ["umbrella"; "final_category"; "agreement"; "flag"]
                       ++ MODELS)
             (records df3)
    ∧ columns df3
      = match records df3 with
        | [] => []
        | _ :: _ => ["umbrella"; "final_category"; "agreement"; "flag"]
                    ++ MODELS
        end.
Proof.
  destruct (aggregate_results_columns _ _ phase2_columns_distinct model_results)
    as (df2 & H2 & Hkeys2 & Hcols2).
  destruct (aggregate_results_columns _ _ phase3_columns_distinct model_results)
    as (df3 & H3 & Hkeys3 & Hcols3).
  by exists df2, df3.
Qed.

(** X13. Summarizing the frame of an aggregator never divides by zero:
    when no observed item has a panel vote the frame has no row and no
    flag column and the summary raises [KeyError]; otherwise the summary
    is returned, its total is the number of rows, its three counts add up
    to the total and its three percentages add up to 100 within 0.3. *)
Theorem aggregate_phase_results_summary
    (model_results : list (string * list (string * string))) :
  ∃ df2 df3,
    aggregate_phase2_results model_results = Ok df2
    ∧ aggregate_phase3_results model_results = Ok df3
    ∧ (records df2 = []
       ↔ ∀ i, observed model_results i → present_votes model_results i = [])
    ∧ (records df3 = []
       ↔ ∀ i, observed model_results i → present_votes model_results i = [])
    ∧ (records df2 = [] →
       generate_summary_stats df2 "flag" = Raise (KeyError "flag"))
    ∧ (records df3 = [] →
       generate_summary_stats df3 "flag" = Raise (KeyError "flag"))
    ∧ (records df2 ≠ [] →
       ∃ stats, generate_summary_stats df2 "flag" = Ok stats
                ∧ total stats = len df2
                ∧ green stats + yellow stats + red stats = total stats
                ∧ (Qabs (green_pct stats + yellow_pct stats
                         + red_pct stats - 100) <= 3 # 10)%Q)
    ∧ (records df3 ≠ [] →
       ∃ stats, generate_summary_stats df3 "flag" = Ok stats
                ∧ total stats = len df3
                ∧ green stats + yellow stats + red stats = total stats
                ∧ (Qabs (green_pct stats + yellow_pct stats
                         + red_pct stats - 100) <= 3 # 10)%Q).
Proof.
  destruct (aggregate_results_summary _ _ phase2_columns_distinct model_results)
    as (df2 & H2 & Hempty2 & Hnil2 & Hok2).
  destruct (aggregate_results_summary _ _ phase3_columns_distinct model_results)
    as (df3 & H3 & Hempty3 & Hnil3 & Hok3).
  by exists df2, df3.
Qed.

(** X14. The frame of an aggregator does not depend on the order in which
    the input mapping enumerates its sources. *)
Theorem aggregate_phase_results_order_independent
    (model_results1 model_results2 : list (string * list (string * string))) :
  NoDup (Dict.keys model_results1) →
  model_results1 ≡ₚ model_results2 →
  aggregate_phase2_results model_results1
  = aggregate_phase2_results model_results2
  ∧ aggregate_phase3_results model_results1
    = aggregate_phase3_results model_results2.
Proof.
  intros Hnd Hperm.
  assert (Hext : ∀ item, panel_votes model_results1 item
                         = panel_votes model_results2 item).
  { intros item. apply panel_votes_ext. intros m _.
    by apply Dict_get_Permutation. }
  unfold aggregate_phase2_results, aggregate_phase3_results, aggregate_results.
  rewrite <- (all_items_Permutation _ _ Hperm).
  by rewrite !(aggregate_rows_ext _ _ model_results1 model_results2).
Qed.

Lemma aggregate_phase_results_order_independent_witness :
  (NoDup (Dict.keys [("gpt5", [("t1", "U")]); ("claude", [("t1", "V")])])
   ∧ [("gpt5", [("t1", "U")]); ("claude", [("t1", "V")])]
     ≡ₚ [("claude", [("t1", "V")]); ("gpt5", [("t1", "U")])])
  ∧ aggregate_phase2_results
      [("gpt5", [("t1", "U")]); ("claude", [("t1", "V")])]
    = aggregate_phase2_results
        [("claude", [("t1", "V")]); ("gpt5", [("t1", "U")])]
  ∧ aggregate_phase3_results
      [("gpt5", [("t1", "U")]); ("claude", [("t1", "V")])]
    = aggregate_phase3_results
        [("claude", [("t1", "V")]); ("gpt5", [("t1", "U")])].
Proof.
  assert (Hnd : NoDup (Dict.keys [("gpt5", [("t1", "U")]);
                                  ("claude", [("t1", "V")])]))
    by (apply (bool_decide_unpack _); by vm_compute).
  split; [split; [exact Hnd|apply perm_swap]|].
  apply aggregate_phase_results_order_independent; [exact Hnd|apply perm_swap].
Defined.

(** X15. In every row of the frame of an aggregator the agreement is the
    plurality count over the number of panel sources that voted on the
    item of the row, with 1 <= count <= number <= 5, and the flag is one
    of the three glyphs. *)
Theorem aggregate_phase_results_agreement
    (model_results : list (string * list (string * string))) :
  ∃ df2 df3,
    aggregate_phase2_results model_results = Ok df2
    ∧ aggregate_phase3_results model_results = Ok df3
    ∧ Forall (tier_flag "flag") (records df2)
    ∧ Forall (tier_flag "flag") (records df3)
    ∧ Forall (λ row, ∃ i,
                Dict.get row "trait" = Some (Some i)
                ∧ Dict.get row "agreement"
                  = Some (Some (pretty (plurality_count
                                          (present_votes model_results i))
                                +:+ "/"
                                +:+ pretty (length
                                              (present_votes model_results i))))
                ∧ 1 ≤ plurality_count (present_votes model_results i)
                  ≤ length (present_votes model_results i)
                ∧ length (present_votes model_results i) ≤ 5)
             (records df2)
    ∧ Forall (λ row, ∃ i,
                Dict.get row "umbrella" = Some (Some i)
                ∧ Dict.get row "agreement"
                  = Some (Some (pretty (plurality_count
                                          (present_votes model_results i))
                                +:+ "/"
                                +:+ pretty (length
                                              (present_votes model_results i))))
                ∧ 1 ≤ plurality_count (present_votes model_results i)
                  ≤ length (present_votes model_results i)
                ∧ length (present_votes model_results i) ≤ 5)
             (records df3).
Proof.
  destruct (aggregate_results_flags _ _ phase2_columns_distinct model_results)
    as (df2 & H2 & Hflags2 & Hagr2 & _).
  destruct (aggregate_results_flags _ _ phase3_columns_distinct model_results)
    as (df3 & H3 & Hflags3 & Hagr3 & _).
  by exists df2, df3.
Qed.

(** * More on the proposal merger *)

Section merger_more.
Implicit Types (mp : list (string * list string)) (t : Z) (s : string).

Lemma chars_normalize s :
  chars (normalize s) = trim is_space (lower_char <$> chars s).
Proof. unfold normalize. by rewrite chars_strip, chars_lower. Qed.

(** [cat.lower().strip()] is idempotent. *)
Lemma normalize_idemp s : normalize (normalize s) = normalize s.
Proof.
  apply chars_inj. rewrite !chars_normalize.
  set (l := lower_char <$> chars s).
  assert (Hfix : lower_char <$> trim is_space l = trim is_space l).
  { rewrite <- (list_fmap_id (trim is_space l)) at 2.
    apply list_fmap_ext. intros i c Hc%list_elem_of_lookup_2. simpl.
    destruct (trim_segment is_space l) as (l1 & l2 & Hl).
    assert (Hcl : c ∈ l) by (rewrite Hl, !elem_of_app; auto).
    apply list_elem_of_fmap in Hcl as (c' & -> & _). apply lower_char_idemp. }
  rewrite Hfix. apply trim_idemp.
Qed.

Lemma elem_of_all_proposals mp s :
  s ∈ all_proposals mp
  ↔ ∃ source cats cat, (source, cats) ∈ mp ∧ cat ∈ cats ∧ normalize cat = s.
Proof.
  unfold all_proposals. rewrite list_elem_of_bind. split.
  - intros ([source cats] & Hs & Hin). simpl in Hs.
    apply list_elem_of_fmap in Hs as (cat & -> & Hcat). by exists source, cats, cat.
  - intros (source & cats & cat & Hin & Hcat & <-).
    exists (source, cats). split; [|done]. simpl. by apply list_elem_of_fmap_2.
Qed.
End merger_more.

(** X16. Raising the threshold filters the merged list: the result for
    the larger threshold is the result for the smaller one without the
    categories whose count is below the larger threshold. *)
Theorem merge_umbrella_proposals_threshold
    (mp : list (string * list string)) (t1 t2 : Z) :
  (t1 ≤ t2)%Z →
  merge_umbrella_proposals mp t2
  = filter (λ s, (t2 ≤ Z.of_nat (occurrences s (all_proposals mp)))%Z)
           (merge_umbrella_proposals mp t1).
Proof.
  intros Hle. apply sorted_NoDup_ext.
  - apply merge_umbrella_proposals_sorted.
  - apply merge_umbrella_proposals_NoDup.
  - eapply StronglySorted_filter_impl; [by intros a b _ _ ?|].
    apply merge_umbrella_proposals_sorted.
  - apply NoDup_filter, merge_umbrella_proposals_NoDup.
  - intros s. rewrite list_elem_of_filter, !elem_of_merge_umbrella_proposals.
    split; [intros [? ?]; split_and!; [done|done|lia]|tauto].
Qed.

Lemma merge_umbrella_proposals_threshold_witness :
  (2 ≤ 3)%Z
  ∧ merge_umbrella_proposals
      [("a", ["Foo"; "Bar"]); ("b", ["foo"; "bar "]); ("c", ["FOO"])] 3
    = filter (λ s, (3 ≤ Z.of_nat
                          (occurrences s
                             (all_proposals
                                [("a", ["Foo"; "Bar"]); ("b", ["foo"; "bar "]);
                                 ("c", ["FOO"])])))%Z)
             (merge_umbrella_proposals
                [("a", ["Foo"; "Bar"]); ("b", ["foo"; "bar "]); ("c", ["FOO"])]
                2).
Proof.
  split; [lia|]. apply merge_umbrella_proposals_threshold. lia.
Defined.

(** X17. With a threshold of at most 1 every proposal is kept, in its
    normalized form; with a threshold above the number of all proposals
    nothing is kept. *)
Theorem merge_umbrella_proposals_extremes
    (mp : list (string * list string)) (t : Z) :
  ((t ≤ 1)%Z →
   ∀ source cats cat, (source, cats) ∈ mp → cat ∈ cats →
     normalize cat ∈ merge_umbrella_proposals mp t)
  ∧ ((Z.of_nat (length (all_proposals mp)) < t)%Z →
     merge_umbrella_proposals mp t = []).
Proof.
  split.
  - intros Ht source cats cat Hin Hcat.
    assert (Hs : normalize cat ∈ all_proposals mp).
    { apply elem_of_all_proposals. by exists source, cats, cat. }
    apply elem_of_merge_umbrella_proposals. split; [done|].
    apply occurrences_pos in Hs. lia.
  - intros Ht. apply elem_of_nil_inv. intros s.
    rewrite elem_of_merge_umbrella_proposals. intros [_ Hs].
    pose proof (occurrences_le_length s (all_proposals mp)). lia.
Qed.

(** X18. The merged categories are in normal form, and merging the merged
    list again, as the proposals of one source with threshold 1, gives it
    back. *)
Theorem merge_umbrella_proposals_normal_form
    (mp : list (string * list string)) (t : Z) (source : string) :
  (∀ s, s ∈ merge_umbrella_proposals mp t → normalize s = s)
  ∧ merge_umbrella_proposals [(source, merge_umbrella_proposals mp t)] 1
    = merge_umbrella_proposals mp t.
Proof.
  assert (Hnorm : ∀ s, s ∈ merge_umbrella_proposals mp t → normalize s = s).
  { intros s [Hs _]%elem_of_merge_umbrella_proposals.
    apply elem_of_all_proposals in Hs as (? & ? & cat & _ & _ & <-).
    apply normalize_idemp. }
  split; [done|].
  set (merged := merge_umbrella_proposals mp t) in *.
  assert (Hall : all_proposals [(source, merged)] = merged).
  { unfold all_proposals. csimpl. rewrite app_nil_r.
    rewrite <- (list_fmap_id merged) at 2. apply list_fmap_ext.
    intros i s Hs%list_elem_of_lookup_2. by apply Hnorm. }
  apply sorted_NoDup_ext.
  - apply merge_umbrella_proposals_sorted.
  - apply merge_umbrella_proposals_NoDup.
  - apply merge_umbrella_proposals_sorted.
  - apply merge_umbrella_proposals_NoDup.
  - intros s. rewrite elem_of_merge_umbrella_proposals, Hall.
    split; [tauto|]. intros Hs. split; [done|].
    apply occurrences_pos in Hs. lia.
Qed.

(** * More on the summary reporter *)

Section float_more.
Local Open Scope Q_scope.

(** The binade of a positive rational is fixed by its value. *)
Lemma binade_unique q (e e' : Z) :
  2 ^ e <= q → q < 2 ^ (e + 1) → 2 ^ e' <= q → q < 2 ^ (e' + 1) → e = e'.
Proof.
  assert (Hmono : ∀ a b : Z, (a + 1 ≤ b)%Z → 2 ^ (a + 1) <= 2 ^ b).
  { intros a b Hab. apply Qpower_le_compat_l; [done|]. by vm_compute. }
  intros Hlo Hhi Hlo' Hhi'.
  destruct (Z.lt_trichotomy e e') as [Hlt|[Heq|Hgt]]; [|done|].
  - pose proof (Hmono e e' ltac:(lia)). lra.
  - pose proof (Hmono e' e ltac:(lia)). lra.
Qed.

Lemma binade_Qeq q q' : 0 < q → q == q' → binade q = binade q'.
Proof.
  intros Hq Heq. assert (Hq' : 0 < q') by lra.
  destruct (binade_spec q Hq) as [Hlo Hhi].
  destruct (binade_spec q' Hq') as [Hlo' Hhi'].
  set (e := binade q) in *. set (e' := binade q') in *.
  set (p0 := 2 ^ e') in *. set (p1 := 2 ^ (e' + 1)) in *.
  assert (Hlo'' : p0 <= q) by lra. assert (Hhi'' : q < p1) by lra.
  by apply (binade_unique q e e').
Qed.

Lemma round_half_even_Qeq q q' :
  q == q' → round_half_even q = round_half_even q'.
Proof.
  intros Heq. unfold round_half_even.
  rewrite (Qfloor_comp q q' Heq).
  assert (Hdiff : q - inject_Z (Qfloor q') == q' - inject_Z (Qfloor q')) by lra.
  by rewrite (Qcompare_comp _ _ Hdiff (1 # 2) (1 # 2) (Qeq_refl _)).
Qed.

Lemma nearest_double_Qeq q q' :
  0 < q → q == q' → nearest_double q = nearest_double q'.
Proof.
  intros Hq Heq. unfold nearest_double.
  rewrite <- (binade_Qeq q q' Hq Heq).
  rewrite (round_half_even_Qeq (q * 2 ^ (52 - binade q))
             (q' * 2 ^ (52 - binade q))); [done|].
  apply Qmult_comp; [exact Heq|apply Qeq_refl].
Qed.

(** Rounding depends on the value of a rational alone, not on the
    fraction that denotes it. *)
Lemma round_nearest_Qeq q q' : q == q' → round_nearest q = round_nearest q'.
Proof.
  intros Heq. unfold round_nearest.
  rewrite <- (Qcompare_comp q q' Heq 0 0 (Qeq_refl _)).
  destruct (q ?= 0) eqn:Hc; [done|..].
  - apply Qlt_alt in Hc. f_equal.
    apply nearest_double_Qeq; [lra|lra].
  - apply Qgt_alt in Hc. by apply nearest_double_Qeq.
Qed.

(** The percentage depends on the proportion alone. *)
Lemma percentage_scale (k count total : nat) :
  (0 < k)%nat → (0 < total)%nat →
  percentage (k * count) (k * total) = percentage count total.
Proof.
  intros Hk Htotal. unfold percentage. do 2 f_equal.
  apply round_nearest_Qeq. unfold Qeq. simpl.
  rewrite <- !positive_nat_Z, !Nat2Pos.id by lia. lia.
Qed.

Lemma percentage_all (total : nat) :
  (0 < total)%nat → percentage total total = 100.
Proof.
  intros Htotal.
  rewrite <- (Nat.mul_1_r total), percentage_scale by lia.
  by vm_compute.
Qed.

Lemma percentage_none (total : nat) : percentage 0 total = 0.
Proof. reflexivity. Qed.
End float_more.

Section reporter_more.
Implicit Types (df : DataFrame) (rows : list (list (string * option string))).

(** A row is counted for at most one tier, and for one exactly when its
    flag is a tier glyph. *)
Lemma tier_counts_le df flag_column :
  flag_count df flag_column GREEN + flag_count df flag_column YELLOW
  + flag_count df flag_column RED ≤ len df
  ∧ (flag_count df flag_column GREEN + flag_count df flag_column YELLOW
     + flag_count df flag_column RED = len df →
     Forall (tier_flag flag_column) (records df)).
Proof.
  unfold flag_count, len.
  induction (records df) as [|row rows [IHle IHall]]; [by split|].
  rewrite !filter_cons. unfold tier_flag at 1.
  destruct (Dict.get row flag_column) as [[flag|]|] eqn:Hflag;
    repeat case_decide; simplify_eq/=;
    (split; [lia|]); intros Hsum;
    try (exfalso; lia);
    (apply Forall_cons; split; [unfold tier_flag; rewrite Hflag; auto|]);
    apply IHall; lia.
Qed.

Lemma flag_count_repeat_frame k df flag_column glyph :
  flag_count (repeat_frame k df) flag_column glyph
  = k * flag_count df flag_column glyph.
Proof.
  unfold flag_count, repeat_frame. simpl.
  induction k as [|k IH]; simpl; [done|].
  by rewrite filter_app, length_app, IH.
Qed.

Lemma len_repeat_frame k df : len (repeat_frame k df) = k * len df.
Proof.
  unfold len, repeat_frame. simpl.
  induction k as [|k IH]; simpl; [done|]. by rewrite length_app, IH.
Qed.
End reporter_more.

(** X19. On a frame with at least one row and with the flag column the
    three counts are the numbers of rows whose flag is the green, the
    yellow and the red glyph; their sum never exceeds the total, and it
    equals the total exactly when every flag is one of the three glyphs. *)
Theorem generate_summary_stats_counts (df : DataFrame) (flag_column : string) :
  records df ≠ [] → flag_column ∈ columns df →
  ∃ stats,
    generate_summary_stats df flag_column = Ok stats
    ∧ total stats = len df
    ∧ green stats = flag_count df flag_column GREEN
    ∧ yellow stats = flag_count df flag_column YELLOW
    ∧ red stats = flag_count df flag_column RED
    ∧ green stats + yellow stats + red stats ≤ total stats
    ∧ (green stats + yellow stats + red stats = total stats
       ↔ Forall (tier_flag flag_column) (records df)).
Proof.
  intros Hne Hcol. eexists.
  split; [by apply generate_summary_stats_ok|].
  cbn [total green yellow red green_pct yellow_pct red_pct].
  destruct (tier_counts_le df flag_column) as [Hle Hall].
  split_and!; [reflexivity..|exact Hle|].
  split; [exact Hall|apply tier_counts_sum].
Qed.

Lemma generate_summary_stats_counts_witness :
  let df := pd_DataFrame [[("flag", Some GREEN)]; [("flag", Some "?")];
                          [("flag", None)]] in
  (records df ≠ [] ∧ "flag" ∈ columns df)
  ∧ ∃ stats,
      generate_summary_stats df "flag" = Ok stats
      ∧ total stats = len df
      ∧ green stats = flag_count df "flag" GREEN
      ∧ yellow stats = flag_count df "flag" YELLOW
      ∧ red stats = flag_count df "flag" RED
      ∧ green stats + yellow stats + red stats ≤ total stats
      ∧ (green stats + yellow stats + red stats = total stats
         ↔ Forall (tier_flag "flag") (records df)).
Proof.
  intros df.
  assert (Hne : records df ≠ []) by discriminate.
  assert (Hcol : "flag" ∈ columns df)
    by (apply (bool_decide_unpack _); by vm_compute).
  split; [done|].
  by apply (generate_summary_stats_counts df "flag").
Defined.

(** X20. A tier without rows has exactly 0.0 percent and a tier that
    holds all the rows has exactly 100.0 percent. *)
Theorem generate_summary_stats_exact_ends (df : DataFrame) (flag_column : string) :
  records df ≠ [] → flag_column ∈ columns df →
  ∃ stats,
    generate_summary_stats df flag_column = Ok stats
    ∧ (green stats = 0 → green_pct stats = 0%Q)
    ∧ (yellow stats = 0 → yellow_pct stats = 0%Q)
    ∧ (red stats = 0 → red_pct stats = 0%Q)
    ∧ (green stats = total stats → green_pct stats = 100%Q)
    ∧ (yellow stats = total stats → yellow_pct stats = 100%Q)
    ∧ (red stats = total stats → red_pct stats = 100%Q).
Proof.
  intros Hne Hcol.
  assert (Hlen : 0 < len df)
    by (unfold len; destruct (records df); [done|simpl; lia]).
  eexists. split; [by apply generate_summary_stats_ok|].
  cbn [total green yellow red green_pct yellow_pct red_pct].
  split_and!; intros Heq; rewrite Heq;
    first [exact (percentage_none _)|exact (percentage_all _ Hlen)].
Qed.

Lemma generate_summary_stats_exact_ends_witness :
  let df := pd_DataFrame [[("flag", Some GREEN)]; [("flag", Some GREEN)];
                          [("flag", Some GREEN)]] in
  (records df ≠ [] ∧ "flag" ∈ columns df)
  ∧ ∃ stats,
      generate_summary_stats df "flag" = Ok stats
      ∧ (green stats = 0 → green_pct stats = 0%Q)
      ∧ (yellow stats = 0 → yellow_pct stats = 0%Q)
      ∧ (red stats = 0 → red_pct stats = 0%Q)
      ∧ (green stats = total stats → green_pct stats = 100%Q)
      ∧ (yellow stats = total stats → yellow_pct stats = 100%Q)
      ∧ (red stats = total stats → red_pct stats = 100%Q).
Proof.
  intros df.
  assert (Hne : records df ≠ []) by discriminate.
  assert (Hcol : "flag" ∈ columns df)
    by (apply (bool_decide_unpack _); by vm_compute).
  split; [done|].
  by apply (generate_summary_stats_exact_ends df "flag").
Defined.

(** X21. The percentages depend on the proportions alone: a frame whose
    rows are those of [df] taken [k] times over has [k] times the counts
    and the same three percentages. *)
Theorem generate_summary_stats_scale
    (k : nat) (df : DataFrame) (flag_column : string) :
  0 < k → records df ≠ [] → flag_column ∈ columns df →
  ∃ stats stats',
    generate_summary_stats df flag_column = Ok stats
    ∧ generate_summary_stats (repeat_frame k df) flag_column = Ok stats'
    ∧ total stats' = k * total stats
    ∧ green stats' = k * green stats
    ∧ yellow stats' = k * yellow stats
    ∧ red stats' = k * red stats
    ∧ green_pct stats' = green_pct stats
    ∧ yellow_pct stats' = yellow_pct stats
    ∧ red_pct stats' = red_pct stats.
Proof.
  intros Hk Hne Hcol.
  assert (Hlen : 0 < len df) by (unfold len; destruct (records df); [done|simpl; lia]).
  assert (Hne' : records (repeat_frame k df) ≠ []).
  { intros Hnil. pose proof (len_repeat_frame k df) as Hl.
    unfold len in Hl at 1. rewrite Hnil in Hl. simpl in Hl. nia. }
  do 2 eexists.
  split; [by apply generate_summary_stats_ok|].
  split; [by apply generate_summary_stats_ok|].
  cbn [total green yellow red green_pct yellow_pct red_pct].
  rewrite !flag_count_repeat_frame, len_repeat_frame.
  split_and!; [reflexivity..| | |]; exact (percentage_scale _ _ _ Hk Hlen).
Qed.

Lemma generate_summary_stats_scale_witness :
  let df := pd_DataFrame [[("flag", Some GREEN)]; [("flag", Some RED)];
                          [("flag", Some GREEN)]] in
  (0 < 2 ∧ records df ≠ [] ∧ "flag" ∈ columns df)
  ∧ ∃ stats stats',
      generate_summary_stats df "flag" = Ok stats
      ∧ generate_summary_stats (repeat_frame 2 df) "flag" = Ok stats'
      ∧ total stats' = 2 * total stats
      ∧ green stats' = 2 * green stats
      ∧ yellow stats' = 2 * yellow stats
      ∧ red stats' = 2 * red stats
      ∧ green_pct stats' = green_pct stats
      ∧ yellow_pct stats' = yellow_pct stats
      ∧ red_pct stats' = red_pct stats.
Proof.
  intros df.
  assert (Hne : records df ≠ []) by discriminate.
  assert (Hcol : "flag" ∈ columns df)
    by (apply (bool_decide_unpack _); by vm_compute).
  split; [split_and!; [lia|done|done]|].
  apply (generate_summary_stats_scale 2 df "flag"); [lia|done|done].
Defined.
